(** * The practice3 storage engine: a replicated in-memory store of
      geospatial features with a write-ahead log, snapshots and
      origin-filtered replication.

    The development embeds [practice3/engine.go] and
    [practice3/replica_registry.go], with the write handlers and
    [parseRectParam] of the storage node and [filler], as Rocq functions over
    explicit state:

    - the in-memory state of [Engine] is a record; the maps are [gmap]s, the
      R-tree (tidwall/rtree, which stores every inserted item, duplicates
      included) is a multiset of (rectangle, id) entries;
    - the two files of an engine live in a [Disk]: a finite map from paths to
      contents, with the permission and capacity faults that make the [os]
      calls of the source fail;
    - a Go panic (a failed type assertion, a nil dereference) ends the engine
      goroutine and with it the process: functions that can panic return an
      [Outcome];
    - [encoding/json] is an interface ([JSON]); a reference instance is given
      at the end of the definitions and used for the concrete runs. *)

From Stdlib Require Import ZArith NArith String Ascii List Lia DecimalString.
From Stdlib Require Import Sorting.Sorted Sorting.Permutation.
From stdpp Require Import base option gmap gmultiset strings list fin_maps.

Set Default Proof Using "Type".
Local Open Scope string_scope.

(** ** Go values *)

(** The [error] values the modelled calls can return: the [os] errors, the
    scanner's [bufio.ErrTooLong], a JSON error and a closed peer socket. *)
Inductive error : Set :=
| ENOENT | EACCES | ENOSPC | ErrTooLong | ErrJSON | ErrClosed.

#[global] Instance error_eq_dec : EqDecision error.
Proof. solve_decision. Defined.

(** [os.IsNotExist]. *)
Definition IsNotExist (err : error) : bool :=
  match err with ENOENT => true | _ => false end.

(** Run-time panics: [x.(string)] on a value that is not a string, and a
    method call or field access through a nil pointer or nil interface. *)
Inductive panic : Set :=
| InterfaceConversion
| NilDereference.

Inductive Outcome (A : Type) : Type :=
| Ret (a : A)
| Panic (p : panic).
Arguments Ret {A} a.
Arguments Panic {A} p.

#[global] Instance Outcome_ret : MRet Outcome := @Ret.
#[global] Instance Outcome_bind : MBind Outcome := λ A B f m,
  match m with
  | Ret a => f a
  | Panic p => Panic p
  end.

(** A Go [any] as far as a decoded GeoJSON [id] member goes: absent/null, a
    string, or a number. *)
Inductive any : Set :=
| Nil
| Str (s : string)
| Num (n : Z).

#[global] Instance any_eq_dec : EqDecision any.
Proof. solve_decision. Defined.

(** [v.(string)]: the unchecked type assertion. *)
Definition assert_string (v : any) : Outcome string :=
  match v with
  | Str s => Ret s
  | _ => Panic InterfaceConversion
  end.

(** Dereference of a pointer that may be nil. *)
Definition deref {A : Type} (p : option A) : Outcome A :=
  match p with
  | Some a => Ret a
  | None => Panic NilDereference
  end.

(** ** Features and transactions *)

(** Coordinates are [float64] in the source; only their equality and order
    are used, so they are integers here (a fixed-point grid). *)
Definition Point : Set := (Z * Z)%type.

(** [orb.Bound]: the corners [Min] and [Max]. *)
Definition Bound : Set := (Point * Point)%type.

(** [geojson.Feature], as far as the engine looks at it: the untyped [ID],
    the geometry (an interface, so possibly nil) known through its bounding
    rectangle [Geometry.Bound()], and the properties as an opaque text. *)
Record GeoFeature : Set := mkGeoFeature {
  ID : any;
  Geometry : option Bound;
  Properties : string;
}.

#[global] Instance GeoFeature_eq_dec : EqDecision GeoFeature.
Proof. solve_decision. Defined.

(** [type Feature struct { Name string; LSN uint64; Feature *geojson.Feature }] *)
Record Feature : Set := mkFeature {
  f_Name : string;
  f_LSN : N;
  f_Feature : option GeoFeature;
}.

#[global] Instance Feature_eq_dec : EqDecision Feature.
Proof. solve_decision. Defined.

(** [type ActionType string] with its two constants. *)
Definition ActionType : Set := string.
Definition Upsert : ActionType := "upsert".
Definition Delete : ActionType := "delete".

(** [type Transaction struct { Action; Name; Lsn uint64; Feature *geojson.Feature }] *)
Record Transaction : Set := mkTransaction {
  tx_Action : ActionType;
  tx_Name : string;
  tx_Lsn : N;
  tx_Feature : option GeoFeature;
}.

#[global] Instance Transaction_eq_dec : EqDecision Transaction.
Proof. solve_decision. Defined.

(** [uint64] arithmetic wraps around. *)
Definition uint64_max : N := 18446744073709551615%N.
Definition uint64_add (a b : N) : N := ((a + b) mod (uint64_max + 1))%N.

(** ** The R-tree (tidwall/rtree)

    The library is used through three calls.  [Insert] always adds an item,
    also when an equal one is stored already.  [Delete] looks for an item
    with the given data at the given rectangle and removes one such item; an
    item stored under another rectangle is not found, and then nothing is
    removed.  [Search] reports the items whose rectangle intersects the
    query, bounds included.  The shape of the tree is not modelled: the index
    is the multiset of its items. *)
Module rtree.

Definition RTreeG : Type := gmultiset (Bound * string).

Definition empty : RTreeG := ∅.

Definition Insert (min max : Point) (data : string) (tr : RTreeG) : RTreeG :=
  tr ⊎ {[+ ((min, max), data) +]}.

Definition Delete (min max : Point) (data : string) (tr : RTreeG) : RTreeG :=
  tr ∖ {[+ ((min, max), data) +]}.

Definition intersects (a b : Bound) : bool :=
  let '((aminx, aminy), (amaxx, amaxy)) := a in
  let '((bminx, bminy), (bmaxx, bmaxy)) := b in
  (bminx <=? amaxx)%Z && (aminx <=? bmaxx)%Z &&
  (bminy <=? amaxy)%Z && (aminy <=? bmaxy)%Z.

Definition Search (min max : Point) (tr : RTreeG) : list string :=
  snd <$> filter (λ it, intersects (fst it) (min, max) = true) (elements tr).

(** The number of entries keyed by [id]. *)
Definition entries_of (id : string) (tr : RTreeG) : nat :=
  length (filter (λ it, snd it = id) (elements tr)).

End rtree.

(** ** The peer sink registry ([replica_registry.go]) *)

(** A [*websocket.Conn] as the registry sees it: the frames handed to
    [WriteJSON], in order, and whether the socket is broken (every write on a
    broken socket returns an error). *)
Record Conn : Set := mkConn {
  writes : list Transaction;
  broken : bool;
}.

#[global] Instance Conn_eq_dec : EqDecision Conn.
Proof. solve_decision. Defined.

Definition WriteJSON (c : Conn) (tx : Transaction) : Conn * option error :=
  (mkConn (writes c ++ [tx]) (broken c),
   if broken c then Some ErrClosed else None).

(** The mutex is not modelled: every method runs to completion under it.
    [r_removing] lists the [go r.Remove(replica)] goroutines [Broadcast] has
    started and that have not run yet.  They run at some later time, one
    [run_removal] each; the engine's own steps leave them pending. *)
Record ReplicaRegistry : Type := mkReplicaRegistry {
  r_name : string;
  r_connections : gmap string Conn;
  r_removing : list string;
}.

Definition NewReplicaRegistry (name : string) : ReplicaRegistry :=
  mkReplicaRegistry name ∅ [].

Definition Add (name : string) (conn : Conn) (r : ReplicaRegistry) : ReplicaRegistry :=
  mkReplicaRegistry (r_name r) (<[name := conn]> (r_connections r)) (r_removing r).

Definition Remove (name : string) (r : ReplicaRegistry) : ReplicaRegistry :=
  mkReplicaRegistry (r_name r) (delete name (r_connections r)) (r_removing r).

(** The replicas whose write fails, one [go r.Remove] each. *)
Definition failing (conns : gmap string Conn) : list string :=
  fst <$> filter (λ kc, broken (snd kc) = true) (map_to_list conns).

Definition Broadcast (tx : Transaction) (r : ReplicaRegistry) : ReplicaRegistry :=
  if decide (tx_Name tx ≠ r_name r) then r
  else
    mkReplicaRegistry (r_name r)
      ((λ conn, fst (WriteJSON conn tx)) <$> r_connections r)
      (r_removing r ++ failing (r_connections r)).

(** One of the pending [go r.Remove(replica)] goroutines gets to run. *)
Definition run_removal (r : ReplicaRegistry) : ReplicaRegistry :=
  match r_removing r with
  | [] => r
  | replica :: rest =>
      mkReplicaRegistry (r_name r) (r_connections (Remove replica r)) rest
  end.

(** ** The engine ([engine.go]) *)

(** The fields of [Engine] without the command channel and the context. *)
Record Engine : Type := mkEngine {
  name : string;
  replicas : list string;
  connections : ReplicaRegistry;
  data : gmap string Feature;
  rTree : rtree.RTreeG;
  vclock : gmap string N;
  snapshotFile : string;
  walFile : string;
}.

Definition NewEngine (name : string) (replicas : list string)
    (snapshotFile walFile : string) : Engine :=
  mkEngine name replicas (NewReplicaRegistry name) ∅ rtree.empty ∅
    snapshotFile walFile.

Definition set_connections (c : ReplicaRegistry) (e : Engine) : Engine :=
  mkEngine (name e) (replicas e) c (data e) (rTree e) (vclock e)
    (snapshotFile e) (walFile e).
Definition set_data (d : gmap string Feature) (e : Engine) : Engine :=
  mkEngine (name e) (replicas e) (connections e) d (rTree e) (vclock e)
    (snapshotFile e) (walFile e).
Definition set_rTree (t : rtree.RTreeG) (e : Engine) : Engine :=
  mkEngine (name e) (replicas e) (connections e) (data e) t (vclock e)
    (snapshotFile e) (walFile e).
Definition set_vclock (v : gmap string N) (e : Engine) : Engine :=
  mkEngine (name e) (replicas e) (connections e) (data e) (rTree e) v
    (snapshotFile e) (walFile e).

(** [e.vclock[origin]]: a missing key reads as zero. *)
Definition vclock_at (e : Engine) (origin : string) : N :=
  default 0%N (vclock e !! origin).

(** [computeBoundsForRTree]: [feature.Geometry.Bound()] on a nil geometry is a
    nil dereference. *)
Definition computeBoundsForRTree (feature : GeoFeature) : Outcome (Point * Point) :=
  b ← deref (Geometry feature);
  mret (fst b, snd b).

Definition updateRTree (feature : GeoFeature) (e : Engine) : Outcome Engine :=
  '(leftBottom, topRight) ← computeBoundsForRTree feature;
  id ← assert_string (ID feature);
  mret (set_rTree (rtree.Insert leftBottom topRight id (rTree e)) e).

Definition deleteFromRTree (feature : GeoFeature) (e : Engine) : Outcome Engine :=
  '(leftBottom, topRight) ← computeBoundsForRTree feature;
  id ← assert_string (ID feature);
  mret (set_rTree (rtree.Delete leftBottom topRight id (rTree e)) e).

(** [applyTransaction]: the dominance check, then the vector clock, then the
    map and the R-tree.  The second result is the Go [error], always nil. *)
Definition applyTransaction (tx : Transaction) (e : Engine)
    : Outcome (bool * option error * Engine) :=
  if (tx_Lsn tx <=? vclock_at e (tx_Name tx))%N then
    mret (false, None, e)
  else
    let e := set_vclock (<[tx_Name tx := tx_Lsn tx]> (vclock e)) e in
    feature ← deref (tx_Feature tx);
    id ← assert_string (ID feature);
    if decide (tx_Action tx = Upsert) then
      let e := set_data (<[id := mkFeature (tx_Name tx) (tx_Lsn tx) (tx_Feature tx)]> (data e)) e in
      e ← updateRTree feature e;
      mret (true, None, e)
    else if decide (tx_Action tx = Delete) then
      let e := set_data (delete id (data e)) e in
      e ← deleteFromRTree feature e;
      mret (true, None, e)
    else
      mret (true, None, e).

(** ** The file system

    The engine opens and closes its two files per operation.  A [Disk] maps a
    path to the content of the file there; [noread] and [nowrite] hold the
    paths the process may not open for reading or for writing (or create), and
    [full] says that no byte can be added. *)
Record Disk : Type := mkDisk {
  files : gmap string string;
  noread : gset string;
  nowrite : gset string;
  full : bool;
}.

Definition set_files (fs : gmap string string) (d : Disk) : Disk :=
  mkDisk fs (noread d) (nowrite d) (full d).

Module os.

(** [os.Stat]: only the error is looked at. *)
Definition Stat (path : string) (d : Disk) : option error :=
  match files d !! path with
  | Some _ => None
  | None => Some ENOENT
  end.

(** [os.MkdirAll(filepath.Dir(path))] followed by [os.Create(path)], whose
    errors the source drops. *)
Definition MkdirAll_Create (path : string) (d : Disk) : Disk :=
  if decide (path ∈ nowrite d) then d
  else set_files (<[path := ""]> (files d)) d.

(** [os.OpenFile(path, O_APPEND|O_WRONLY, _)]: no [O_CREATE]. *)
Definition OpenFile_append (path : string) (d : Disk) : option error :=
  match files d !! path with
  | None => Some ENOENT
  | Some _ => if decide (path ∈ nowrite d) then Some EACCES else None
  end.

(** [file.Write(bytes)] on a file opened for appending. *)
Definition Write (path : string) (bytes : string) (d : Disk) : option error * Disk :=
  if full d && negb (String.eqb bytes "") then (Some ENOSPC, d)
  else
    (None, set_files (<[path := default "" (files d !! path) +:+ bytes]> (files d)) d).

(** [os.OpenFile(path, O_RDWR|O_TRUNC, _)] and the [Close] that follows: no
    [O_CREATE] either. *)
Definition OpenFile_trunc (path : string) (d : Disk) : option error * Disk :=
  match files d !! path with
  | None => (Some ENOENT, d)
  | Some _ =>
      if decide (path ∈ nowrite d ∨ path ∈ noread d) then (Some EACCES, d)
      else (None, set_files (<[path := ""]> (files d)) d)
  end.

(** [os.Open] and reading to the end, and [os.ReadFile]. *)
Definition ReadFile (path : string) (d : Disk) : string + error :=
  match files d !! path with
  | None => inr ENOENT
  | Some content =>
      if decide (path ∈ noread d) then inr EACCES else inl content
  end.

(** [os.WriteFile]: open with [O_WRONLY|O_CREATE|O_TRUNC], write, close. *)
Definition WriteFile (path : string) (bytes : string) (d : Disk) : option error * Disk :=
  if decide (path ∈ nowrite d) then (Some EACCES, d)
  else if full d && negb (String.eqb bytes "") then
    (Some ENOSPC, set_files (<[path := ""]> (files d)) d)
  else (None, set_files (<[path := bytes]> (files d)) d).

End os.

(** ** [bufio.Scanner] with the default split function [ScanLines] *)
Module bufio.

Definition LF : ascii := "010"%char.
Definition CR : ascii := "013"%char.

Definition MaxScanTokenSize : N := 65536%N.

Fixpoint len (s : string) : N :=
  match s with
  | EmptyString => 0%N
  | String _ s => N.succ (len s)
  end.

(** The pieces of [s] between its newlines; the last piece is what follows
    the last newline. *)
Fixpoint pieces (s : string) : list string :=
  match s with
  | EmptyString => [EmptyString]
  | String c s =>
      match pieces s with
      | p :: ps =>
          if Ascii.eqb c LF then EmptyString :: p :: ps
          else String c p :: ps
      | [] => []
      end
  end.

Fixpoint dropCR (s : string) : string :=
  match s with
  | EmptyString => EmptyString
  | String c EmptyString => if Ascii.eqb c CR then EmptyString else s
  | String c s => String c (dropCR s)
  end.

(** A line is delivered when it fits the buffer together with its newline;
    the buffer grows up to [MaxScanTokenSize] bytes, after which [Scan]
    stops with [ErrTooLong]. *)
Definition fits (line : string) : bool := (len line <? MaxScanTokenSize)%N.

(** The tokens of successive [Scan] calls and the final [Err()].  A last
    piece without newline is a token unless it is empty. *)
Fixpoint tokens (ps : list string) : list string * option error :=
  match ps with
  | [] => ([], None)
  | [p] =>
      if String.eqb p "" then ([], None)
      else if fits p then ([dropCR p], None)
      else ([], Some ErrTooLong)
  | p :: ps =>
      if fits p then
        let '(ts, err) := tokens ps in (dropCR p :: ts, err)
      else ([], Some ErrTooLong)
  end.

Definition Scan (content : string) : list string * option error :=
  tokens (pieces content).

End bufio.

(** ** [encoding/json]

    The engine marshals two types: a [Transaction] (one WAL line, one peer
    message) and the data map (the snapshot).  For [Marshal] and for the
    [Unmarshal] of a line, [None] is an error.  [Unmarshal] into the data map
    stores the pairs it can decode and reports the first value that does not
    fit, so it gives the decoded pairs together with the error; a text that is
    not JSON at all is refused before anything is stored. *)
Class JSON : Type := {
  Marshal_Transaction : Transaction → option string;
  Unmarshal_Transaction : string → option Transaction;
  Marshal_data : gmap string Feature → option string;
  Unmarshal_data : string → gmap string Feature * option error;
}.

(** The monadic left fold of a [for ... range] loop whose body can panic. *)
Fixpoint foldM {A S : Type} (body : A → S → Outcome S) (l : list A) (s : S) : Outcome S :=
  match l with
  | [] => mret s
  | a :: l => s ← body a s; foldM body l s
  end.

Section engine.
Context `{codec : JSON}.

(** *** Loading *)

(** [json.Unmarshal(data, &e.data)] stores the decoded pairs into the
    existing map, also when it reports an error for one of them. *)
Definition loadSnapshot (e : Engine) (d : Disk) : option error * Engine :=
  match os.Stat (snapshotFile e) d with
  | Some ENOENT => (Some ENOENT, e)
  | _ =>
      match os.ReadFile (snapshotFile e) d with
      | inr err => (Some err, e)
      | inl content =>
          let '(m, err) := Unmarshal_data content in
          (err, set_data (m ∪ data e) e)
      end
  end.

(** Lines that do not unmarshal are skipped; a scanner error drops the
    whole result. *)
Definition loadWAL (e : Engine) (d : Disk) : list Transaction * option error :=
  match os.ReadFile (walFile e) d with
  | inr err => if IsNotExist err then ([], None) else ([], Some err)
  | inl content =>
      let '(lines, err) := bufio.Scan content in
      let wal := omap Unmarshal_Transaction lines in
      match err with
      | Some err => ([], Some err)
      | None => (wal, None)
      end
  end.

Definition applyWAL (wal : list Transaction) (e : Engine) : Outcome Engine :=
  foldM (λ tx e, '(_, _, e) ← applyTransaction tx e; mret e) wal e.

(** The range is over a Go map; the multiset of inserted entries does not
    depend on the order. *)
Definition restoreRTree (e : Engine) : Outcome Engine :=
  foldM (λ kf e, feature ← deref (f_Feature (snd kf)); updateRTree feature e)
    (map_to_list (data e)) e.

(** *** Saving *)

Definition saveSnapshot (e : Engine) (d : Disk) : option error * Disk :=
  match Marshal_data (data e) with
  | None => (Some ErrJSON, d)
  | Some bytes =>
      let d :=
        match os.Stat (snapshotFile e) d with
        | Some ENOENT => os.MkdirAll_Create (snapshotFile e) d
        | _ => d
        end in
      os.WriteFile (snapshotFile e) bytes d
  end.

Definition saveTransactionToWAL (tx : Transaction) (e : Engine) (d : Disk)
    : option error * Disk :=
  let d :=
    match os.Stat (walFile e) d with
    | Some ENOENT => os.MkdirAll_Create (walFile e) d
    | _ => d
    end in
  match os.OpenFile_append (walFile e) d with
  | Some err => (Some err, d)
  | None =>
      match Marshal_Transaction tx with
      | None => (Some ErrJSON, d)
      | Some bytes =>
          os.Write (walFile e) (bytes +:+ String bufio.LF EmptyString) d
      end
  end.

Definition clearWAL (e : Engine) (d : Disk) : option error * Disk :=
  os.OpenFile_trunc (walFile e) d.

Definition makeSnapshot (e : Engine) (d : Disk) : option error * Disk :=
  match saveSnapshot e d with
  | (Some err, d) => (Some err, d)
  | (None, d) => clearWAL e d
  end.

(** *** The apply path *)

Definition applyTransactionAndSave (tx : Transaction) (e : Engine) (d : Disk)
    : Outcome (option error * Engine * Disk) :=
  '(applied, err, e) ← applyTransaction tx e;
  if bool_decide (err ≠ None) || negb applied then mret (err, e, d)
  else
    match saveTransactionToWAL tx e d with
    | (Some err, d) => mret (Some err, e, d)
    | (None, d) =>
        mret (None, set_connections (Broadcast tx (connections e)) e, d)
    end.

(** [ApplyTransaction] (a local write) stamps the transaction with the
    engine's name and the next LSN of its own clock entry;
    [ApplyTransactionRaw] takes the transaction as it is.  Both are served
    by the command loop through [applyTransactionAndSave]. *)
Definition ApplyTransactionRaw (tx : Transaction) (e : Engine) (d : Disk)
    : Outcome (option error * Engine * Disk) :=
  applyTransactionAndSave tx e d.

Definition ApplyTransaction (action : ActionType) (feature : option GeoFeature)
    (e : Engine) (d : Disk) : Outcome (option error * Engine * Disk) :=
  let tx :=
    mkTransaction action (name e) (uint64_add (vclock_at e (name e)) 1) feature in
  ApplyTransactionRaw tx e d.

End engine.

(** ** Replication at start-up *)

(** What the engine does not decide itself: whether dialling a replica gives a
    connection, and the order in which [range] visits the data map. *)
Record Runtime : Type := mkRuntime {
  Dial : string → option Conn;
  range_data : gmap string Feature → list (string * Feature);
}.


Definition connectToReplicas (rt : Runtime) (e : Engine) : Engine :=
  foldl (λ e replica,
           match Dial rt replica with
           | None => e
           | Some conn => set_connections (Add replica conn (connections e)) e
           end) e (replicas e).

(** [sort.Slice(txs, func(i, j) bool { return txs[i].Lsn < txs[j].Lsn })].
    [sort.Slice] is not stable; together with the unspecified [range] order
    before it, an insertion sort reaches the same results. *)
Fixpoint insert_by_Lsn (tx : Transaction) (txs : list Transaction) : list Transaction :=
  match txs with
  | [] => [tx]
  | tx' :: rest =>
      if (tx_Lsn tx' <? tx_Lsn tx)%N then tx' :: insert_by_Lsn tx rest
      else tx :: txs
  end.

Definition sort_Slice_by_Lsn (txs : list Transaction) : list Transaction :=
  foldr insert_by_Lsn [] txs.

(** The synthetic transaction of a stored feature. *)
Definition upsert_of (feature : Feature) : Transaction :=
  mkTransaction Upsert (f_Name feature) (f_LSN feature) (f_Feature feature).

(** The slice [txs] of [broadcastAllData] after the sort. *)
Definition allDataTransactions (rt : Runtime) (e : Engine) : list Transaction :=
  sort_Slice_by_Lsn ((λ kf, upsert_of (snd kf)) <$> range_data rt (data e)).

Definition broadcast_each (txs : list Transaction) (e : Engine) : Engine :=
  foldl (λ e tx, set_connections (Broadcast tx (connections e)) e) e txs.

Definition broadcastAllData (rt : Runtime) (e : Engine) : Engine :=
  broadcast_each (allDataTransactions rt e) e.

(** ** Queries *)

Definition getAllData (e : Engine) : Outcome (gmap string (option GeoFeature)) :=
  foldM (λ kf result,
           feature ← deref (f_Feature (snd kf));
           id ← assert_string (ID feature);
           mret (<[id := f_Feature (snd kf)]> result))
        (map_to_list (data e)) ∅.

(** [e.data[ID].Feature] goes through the pointer the map returns, nil for a
    key that is not there. *)
Definition getData (coordinates : Z * Z * Z * Z) (e : Engine)
    : Outcome (gmap string (option GeoFeature)) :=
  let '(minX, minY, maxX, maxY) := coordinates in
  let featureIDs := rtree.Search (minX, minY) (maxX, maxY) (rTree e) in
  foldM (λ id result,
           feature ← deref (data e !! id);
           mret (<[id := f_Feature feature]> result))
        featureIDs ∅.

(** ** The command loop *)

Inductive Command : Type :=
| GetAllCommand
| GetCommand (coordinates : Z * Z * Z * Z)
| ExistsCommand (id : string)
| ApplyCommand (tx : Transaction)
| SnapshotCommand.

(** What a command sends on its reply channel. *)
Inductive Reply : Type :=
| Features (m : gmap string (option GeoFeature))
| Found (b : bool)
| Err (err : option error).

Section loop.
Context `{codec : JSON}.

Definition Execute (cmd : Command) (e : Engine) (d : Disk)
    : Outcome (Reply * Engine * Disk) :=
  match cmd with
  | GetAllCommand => m ← getAllData e; mret (Features m, e, d)
  | GetCommand coordinates => m ← getData coordinates e; mret (Features m, e, d)
  | ExistsCommand id =>
      m ← getAllData e; mret (Found (bool_decide (is_Some (m !! id))), e, d)
  | ApplyCommand tx =>
      '(err, e, d) ← applyTransactionAndSave tx e d; mret (Err err, e, d)
  | SnapshotCommand =>
      let '(err, d) := makeSnapshot e d in mret (Err err, e, d)
  end.

(** The loop of [Start] on the commands it receives before it is stopped. *)
Fixpoint serve (cmds : list Command) (e : Engine) (d : Disk)
    : Outcome (list Reply * Engine * Disk) :=
  match cmds with
  | [] => mret ([], e, d)
  | cmd :: cmds =>
      '(r, e, d) ← Execute cmd e d;
      '(rs, e, d) ← serve cmds e d;
      mret (r :: rs, e, d)
  end.

(** [Start] up to the command loop. *)
Definition recover (rt : Runtime) (e : Engine) (d : Disk) : Outcome Engine :=
  let '(_, e) := loadSnapshot e d in
  e ← restoreRTree e;
  let '(wal, _) := loadWAL e d in
  e ← applyWAL wal e;
  let e := connectToReplicas rt e in
  mret (broadcastAllData rt e).

Definition Start (rt : Runtime) (cmds : list Command) (e : Engine) (d : Disk)
    : Outcome (list Reply * Engine * Disk) :=
  e ← recover rt e d;
  serve cmds e d.

End loop.

(** ** A reference [JSON] instance

    A reader and a writer for the subset of JSON the concrete runs need: the
    texts are objects with the members of the Go structs in declaration order,
    without white space; a feature is written with its id, its bounding box
    and its properties.  Strings that would need an escape are refused by the
    writer. *)
Module refjson.

Definition quote : ascii := "034"%char.
Definition backslash : ascii := "092"%char.
Definition dq : string := String quote EmptyString.

Definition plain (c : ascii) : bool :=
  (32 <=? nat_of_ascii c)%nat && negb (Ascii.eqb c quote) && negb (Ascii.eqb c backslash).

Fixpoint all_plain (s : string) : bool :=
  match s with
  | EmptyString => true
  | String c s => plain c && all_plain s
  end.

(** *** Writing *)

Definition key (k : string) : string := dq +:+ k +:+ dq +:+ ":".

Definition enc_string (s : string) : option string :=
  if all_plain s then Some (dq +:+ s +:+ dq) else None.

Definition enc_N (n : N) : string := NilEmpty.string_of_uint (N.to_uint n).

Definition enc_Z (z : Z) : string :=
  if (z <? 0)%Z then "-" +:+ enc_N (Z.abs_N z) else enc_N (Z.to_N z).

Definition enc_any (v : any) : option string :=
  match v with
  | Nil => Some "null"
  | Str s => enc_string s
  | Num n => Some (enc_Z n)
  end.

Definition enc_bbox (b : option Bound) : string :=
  match b with
  | None => "null"
  | Some ((x0, y0), (x1, y1)) =>
      "[" +:+ enc_Z x0 +:+ "," +:+ enc_Z y0 +:+ "," +:+ enc_Z x1 +:+ "," +:+ enc_Z y1 +:+ "]"
  end.

Definition enc_feature (f : option GeoFeature) : option string :=
  match f with
  | None => Some "null"
  | Some g =>
      id ← enc_any (ID g);
      props ← enc_string (Properties g);
      Some ("{" +:+ key "id" +:+ id +:+ "," +:+ key "bbox" +:+ enc_bbox (Geometry g)
            +:+ "," +:+ key "properties" +:+ props +:+ "}")
  end.

Definition enc_Transaction (tx : Transaction) : option string :=
  action ← enc_string (tx_Action tx);
  origin ← enc_string (tx_Name tx);
  feature ← enc_feature (tx_Feature tx);
  Some ("{" +:+ key "action" +:+ action +:+ "," +:+ key "name" +:+ origin
        +:+ "," +:+ key "lsn" +:+ enc_N (tx_Lsn tx)
        +:+ "," +:+ key "feature" +:+ feature +:+ "}").

Definition enc_Feature (f : Feature) : option string :=
  origin ← enc_string (f_Name f);
  feature ← enc_feature (f_Feature f);
  Some ("{" +:+ key "Name" +:+ origin +:+ "," +:+ key "LSN" +:+ enc_N (f_LSN f)
        +:+ "," +:+ key "Feature" +:+ feature +:+ "}").

Fixpoint enc_entries (kfs : list (string * Feature)) : option string :=
  match kfs with
  | [] => Some ""
  | (k, f) :: rest =>
      k ← enc_string k;
      f ← enc_Feature f;
      rest' ← enc_entries rest;
      Some (k +:+ ":" +:+ f +:+ (match rest with [] => "" | _ => "," end) +:+ rest')
  end.

Definition enc_data (m : gmap string Feature) : option string :=
  body ← enc_entries (map_to_list m);
  Some ("{" +:+ body +:+ "}").

(** *** Reading: every reader returns the value and the rest of the text *)

Fixpoint lit (p s : string) : option string :=
  match p, s with
  | EmptyString, _ => Some s
  | String a p, String b s => if Ascii.eqb a b then lit p s else None
  | _, _ => None
  end.

Fixpoint take_plain (s : string) : string * string :=
  match s with
  | EmptyString => (EmptyString, EmptyString)
  | String c s' =>
      if plain c then let '(body, rest) := take_plain s' in (String c body, rest)
      else (EmptyString, s)
  end.

Definition dec_string (s : string) : option (string * string) :=
  s ← lit dq s;
  let '(body, rest) := take_plain s in
  rest ← lit dq rest;
  Some (body, rest).

Definition digit (c : ascii) : option N :=
  let n := N_of_ascii c in
  if (48 <=? n)%N && (n <=? 57)%N then Some (n - 48)%N else None.

Fixpoint more_digits (acc : N) (s : string) : N * string :=
  match s with
  | EmptyString => (acc, s)
  | String c s' =>
      match digit c with
      | Some dgt => more_digits (10 * acc + dgt)%N s'
      | None => (acc, s)
      end
  end.

Definition dec_N (s : string) : option (N * string) :=
  match s with
  | String c s' =>
      dgt ← digit c;
      Some (more_digits dgt s')
  | EmptyString => None
  end.

Definition dec_uint64 (s : string) : option (N * string) :=
  '(n, rest) ← dec_N s;
  if (n <=? uint64_max)%N then Some (n, rest) else None.

Definition dec_Z (s : string) : option (Z * string) :=
  match lit "-" s with
  | Some s => '(n, rest) ← dec_N s; Some ((- Z.of_N n)%Z, rest)
  | None => '(n, rest) ← dec_N s; Some (Z.of_N n, rest)
  end.

Definition dec_any (s : string) : option (any * string) :=
  match lit "null" s with
  | Some rest => Some (Nil, rest)
  | None =>
      match dec_string s with
      | Some (v, rest) => Some (Str v, rest)
      | None => '(z, rest) ← dec_Z s; Some (Num z, rest)
      end
  end.

Definition dec_bbox (s : string) : option (option Bound * string) :=
  match lit "null" s with
  | Some rest => Some (None, rest)
  | None =>
      s ← lit "[" s;
      '(x0, s) ← dec_Z s; s ← lit "," s;
      '(y0, s) ← dec_Z s; s ← lit "," s;
      '(x1, s) ← dec_Z s; s ← lit "," s;
      '(y1, s) ← dec_Z s; s ← lit "]" s;
      Some (Some ((x0, y0), (x1, y1)), s)
  end.

Definition dec_feature (s : string) : option (option GeoFeature * string) :=
  match lit "null" s with
  | Some rest => Some (None, rest)
  | None =>
      s ← lit ("{" +:+ key "id") s;
      '(id, s) ← dec_any s;
      s ← lit ("," +:+ key "bbox") s;
      '(bbox, s) ← dec_bbox s;
      s ← lit ("," +:+ key "properties") s;
      '(props, s) ← dec_string s;
      s ← lit "}" s;
      Some (Some (mkGeoFeature id bbox props), s)
  end.

Definition dec_Transaction (s : string) : option Transaction :=
  s ← lit ("{" +:+ key "action") s;
  '(action, s) ← dec_string s;
  s ← lit ("," +:+ key "name") s;
  '(origin, s) ← dec_string s;
  s ← lit ("," +:+ key "lsn") s;
  '(lsn, s) ← dec_uint64 s;
  s ← lit ("," +:+ key "feature") s;
  '(feature, s) ← dec_feature s;
  s ← lit "}" s;
  if String.eqb s "" then Some (mkTransaction action origin lsn feature) else None.

Definition dec_Feature (s : string) : option (Feature * string) :=
  s ← lit ("{" +:+ key "Name") s;
  '(origin, s) ← dec_string s;
  s ← lit ("," +:+ key "LSN") s;
  '(lsn, s) ← dec_uint64 s;
  s ← lit ("," +:+ key "Feature") s;
  '(feature, s) ← dec_feature s;
  s ← lit "}" s;
  Some (mkFeature origin lsn feature, s).

(** The members of the snapshot object; [fuel] bounds their number. *)
Fixpoint dec_entries (fuel : nat) (s : string) : option (list (string * Feature) * string) :=
  match fuel with
  | O => None
  | S fuel =>
      '(k, s) ← dec_string s;
      s ← lit ":" s;
      '(f, s) ← dec_Feature s;
      match lit "," s with
      | Some s => '(rest, s) ← dec_entries fuel s; Some ((k, f) :: rest, s)
      | None => Some ([(k, f)], s)
      end
  end.

Definition dec_data (s : string) : option (gmap string Feature) :=
  s ← lit "{" s;
  match lit "}" s with
  | Some rest => if String.eqb rest "" then Some ∅ else None
  | None =>
      '(kfs, s) ← dec_entries (String.length s) s;
      s ← lit "}" s;
      if String.eqb s "" then Some (list_to_map (reverse kfs)) else None
  end.

#[export] Instance codec : JSON := {|
  Marshal_Transaction := enc_Transaction;
  Unmarshal_Transaction := dec_Transaction;
  Marshal_data := enc_data;
  Unmarshal_data := λ s,
    match dec_data s with
    | Some m => (m, None)
    | None => (∅, Some ErrJSON)
    end;
|}.

End refjson.

(** ** Sample values for the concrete runs *)
Module sample.

Definition point (x y : Z) : option Bound := Some ((x, y), (x, y)).

Definition feature (id : string) (x y : Z) : option GeoFeature :=
  Some (mkGeoFeature (Str id) (point x y) "").

Definition disk : Disk := mkDisk ∅ ∅ ∅ false.

Definition engine : Engine := NewEngine "n1" ["n2"; "n3"] "snapshot.json" "wal.txt".

Definition runtime : Runtime := mkRuntime (λ _, Some (mkConn [] false)) map_to_list.

Definition tx1 : Transaction := mkTransaction Upsert "n1" 1 (feature "a" 1 1).
Definition tx2 : Transaction := mkTransaction Upsert "n1" 2 (feature "a" 9 9).

End sample.

(** ** The vocabulary of the properties *)

(** What [applyTransaction] never touches. *)
Definition same_identity (e e' : Engine) : Prop :=
  name e' = name e ∧ replicas e' = replicas e ∧
  snapshotFile e' = snapshotFile e ∧ walFile e' = walFile e.

(** Everything of the engine but the R-tree. *)
Definition same_but_rTree (e e' : Engine) : Prop :=
  same_identity e e' ∧ connections e' = connections e ∧
  data e' = data e ∧ vclock e' = vclock e.

Definition dominant (tx : Transaction) (e : Engine) : Prop :=
  (vclock_at e (tx_Name tx) < tx_Lsn tx)%N.

Definition vclock_dominates (e : Engine) : Prop :=
  map_Forall (λ _ F, (f_LSN F ≤ vclock_at e (f_Name F))%N) (data e).

(** A stored feature the R-tree rebuild can index: it has a payload, the
    payload a string id and a geometry. *)
Definition indexable (F : Feature) : bool :=
  match f_Feature F with
  | Some g =>
      match ID g, Geometry g with
      | Str _, Some _ => true
      | _, _ => false
      end
  | None => false
  end.

(** Every stored feature is filed under its own id, has a geometry, and has
    an R-tree entry under that id with the rectangle of that geometry. *)
Definition indexed (e : Engine) : Prop :=
  map_Forall
    (λ id F, ∃ g b, f_Feature F = Some g ∧ ID g = Str id ∧ Geometry g = Some b ∧
                    (b, id) ∈ rTree e)
    (data e).

(** What one [Broadcast] hands to a connection. *)
Definition frames_of (self : string) (tx : Transaction) : list Transaction :=
  if decide (tx_Name tx = self) then [tx] else [].

Definition written (frames : list Transaction) (conn : Conn) : Conn :=
  mkConn (writes conn ++ frames) (broken conn).


Fixpoint no_LF (s : string) : bool :=
  match s with
  | EmptyString => true
  | String c s => negb (Ascii.eqb c bufio.LF) && no_LF s
  end.

Fixpoint ends_with_CR (s : string) : bool :=
  match s with
  | EmptyString => false
  | String c EmptyString => Ascii.eqb c bufio.CR
  | String _ s => ends_with_CR s
  end.

(** A text that [ScanLines] gives back as it is: no newline inside, no
    carriage return at the end.  The compact output of [json.Marshal] for a
    struct is such a text. *)
Definition one_line (s : string) : bool := no_LF s && negb (ends_with_CR s).

(** An empty WAL: no file yet, or a file without content. *)
Definition wal_is_empty (e : Engine) (d : Disk) : Prop :=
  files d !! walFile e = None ∨ files d !! walFile e = Some "".

(** ** More sample values *)

Module wal_failure.
Import sample.

(** A disk on which the WAL can neither be created nor opened. *)
Definition readonly_disk : Disk := mkDisk ∅ ∅ {["wal.txt"]} false.

End wal_failure.

Module bad_id.

(** An upsert whose payload has no id, and one whose id is a number. *)
Definition without_id : Transaction :=
  mkTransaction Upsert "n2" 1 (Some (mkGeoFeature Nil (sample.point 1 1) "")).
Definition numeric_id : Transaction :=
  mkTransaction Upsert "n2" 1 (Some (mkGeoFeature (Num 7) (sample.point 1 1) "")).

End bad_id.

Module two_sinks.

(** A registry named n1 with two peers connected. *)
Definition registry : ReplicaRegistry :=
  Add "n3" (mkConn [] false) (Add "n2" (mkConn [] false) (NewReplicaRegistry "n1")).

Definition engine : Engine := set_connections registry sample.engine.

Definition foreign : Transaction := mkTransaction Upsert "n2" 1 (sample.feature "b" 2 2).

End two_sinks.

Module restart.
Import sample.

(** Three features: b and a written locally (a twice), c received from n2. *)
Definition history : list Command :=
  [ ApplyCommand tx1;
    ApplyCommand (mkTransaction Upsert "n1" 2 (feature "b" 5 5));
    ApplyCommand (mkTransaction Upsert "n2" 1 (feature "c" 7 7));
    ApplyCommand (mkTransaction Upsert "n1" 3 (feature "a" 9 9)) ].

(** The disk such a run leaves behind. *)
Definition disk : Disk :=
  Eval vm_compute in
    match Start (codec := refjson.codec) runtime history engine sample.disk with
    | Ret (_, _, d) => d
    | Panic _ => sample.disk
    end.


End restart.

Module snapshot_restart.
Import sample.

(** One local write, then a snapshot: the disk this leaves behind.  The
    WAL file exists when the snapshot is taken, so the snapshot succeeds. *)
Definition before : Outcome (list Reply * Engine * Disk) :=
  Start (codec := refjson.codec) runtime [ApplyCommand tx1; SnapshotCommand]
    engine sample.disk.

Definition engine_before : Engine :=
  Eval vm_compute in
    match before with Ret (_, e, _) => e | Panic _ => engine end.

Definition disk : Disk :=
  Eval vm_compute in
    match before with Ret (_, _, d) => d | Panic _ => sample.disk end.

End snapshot_restart.

Module long_line.

(** A well-formed upsert of a feature whose properties take 70000 bytes. *)
Definition properties : string := N.iter 70000 (String "a"%char) EmptyString.

Definition tx : Transaction :=
  mkTransaction Upsert "n1" 1
    (Some (mkGeoFeature (Str "a") (sample.point 1 1) properties)).

Definition line : string := default "" (refjson.enc_Transaction tx).

End long_line.

Module stale_entries.
Import sample.

(** Two local upserts of the same id with different geometries, on a fresh
    engine. *)
Definition replaced : Outcome (option error * Engine * Disk) :=
  '(_, e, d) ← ApplyTransaction (codec := refjson.codec) Upsert (feature "a" 1 1) engine disk;
  ApplyTransaction (codec := refjson.codec) Upsert (feature "a" 9 9) e d.

(** Then a local delete of that id, with the payload that is stored. *)
Definition deleted : Outcome (option error * Engine * Disk) :=
  '(_, e, d) ← replaced;
  ApplyTransaction (codec := refjson.codec) Delete (feature "a" 9 9) e d.

Definition old_entry : Bound * string := (((1, 1), (1, 1))%Z, "a").
Definition new_entry : Bound * string := (((9, 9), (9, 9))%Z, "a").

End stale_entries.

(** ** More of the engine's interface *)

(** The blocking call [Exists]: what [ExistsCommand] sends back. *)
Definition Exists (id : string) (e : Engine) : Outcome bool :=
  m ← getAllData e;
  mret (bool_decide (is_Some (m !! id))).


(** The text of a WAL file that holds these lines. *)
Fixpoint wal_text (lines : list string) : string :=
  match lines with
  | [] => EmptyString
  | line :: lines => line +:+ String bufio.LF (wal_text lines)
  end.

(** A line the scanner delivers unchanged. *)
Definition scannable (line : string) : Prop :=
  one_line line = true ∧ (bufio.len line < bufio.MaxScanTokenSize)%N.


(** The pending removals of a registry, all run. *)
Fixpoint run_removals (n : nat) (r : ReplicaRegistry) : ReplicaRegistry :=
  match n with
  | O => r
  | S n => run_removals n (run_removal r)
  end.

Definition drain (r : ReplicaRegistry) : ReplicaRegistry :=
  run_removals (length (r_removing r)) r.

(** No two stored features of one origin carry the same LSN. *)
Definition lsns_distinct (e : Engine) : Prop :=
  ∀ id1 id2 F1 F2,
    data e !! id1 = Some F1 → data e !! id2 = Some F2 →
    f_Name F1 = f_Name F2 → f_LSN F1 = f_LSN F2 → id1 = id2.

Section loggable.
Context `{codec : JSON}.


End loggable.

(** ** The HTTP handlers of the storage node

    The write handlers of [Storage] as far as they decide what reaches the
    engine and which status the client gets.  A handler runs in a goroutine
    of the HTTP server, which recovers a panic of the handler and drops the
    connection ([Aborted]); a panic inside an engine call is a panic of the
    engine goroutine and ends the process ([Panic]).  One request is served
    at a time. *)

Inductive Status : Set :=
| StatusOK
| StatusBadRequest
| StatusNotFound
| StatusInternalServerError.

(** [http.ResponseWriter]: the status line, once it is written.  A second
    [WriteHeader] is ignored, and a handler that returns without writing has
    answered 200. *)
Definition ResponseWriter : Set := option Status.

Definition WriteHeader (code : Status) (w : ResponseWriter) : ResponseWriter :=
  match w with
  | Some _ => w
  | None => Some code
  end.

Definition http_Error (code : Status) (w : ResponseWriter) : ResponseWriter :=
  WriteHeader code w.

Definition status_sent (w : ResponseWriter) : Status := default StatusOK w.

Inductive Served : Set :=
| Replied (code : Status)
| Aborted (p : panic).

(** [geojson.UnmarshalFeature], [None] for an error. *)
Class GeoJSON : Type := {
  UnmarshalFeature : string → option GeoFeature;
}.

(** The fields of [Storage] the write handlers use. *)
Record Storage : Type := mkStorage {
  leader : bool;
  engine : Engine;
}.

Section handlers.
Context `{codec : JSON} `{geo : GeoJSON}.

(** [body] is the result of [io.ReadAll(r.Body)], [None] for an error.  When
    the id is there and is not a string, the handler formats [err.Error()]
    with the nil [err] left by the successful unmarshal. *)
Definition upsertHandler (replace : bool) (body : option string) (s : Storage) (d : Disk)
    : Outcome (Served * Storage * Disk) :=
  let w : ResponseWriter := None in
  if negb (leader s) then mret (Replied (status_sent w), s, d)
  else
    match body with
    | None => mret (Replied (status_sent (http_Error StatusBadRequest w)), s, d)
    | Some bytes =>
        match UnmarshalFeature bytes with
        | None => mret (Replied (status_sent (http_Error StatusBadRequest w)), s, d)
        | Some feature =>
            match ID feature with
            | Nil => mret (Replied (status_sent (http_Error StatusBadRequest w)), s, d)
            | Num _ => mret (Aborted NilDereference, s, d)
            | Str id =>
                missing ← (if replace
                           then found ← Exists id (engine s); mret (negb found)
                           else mret false);
                if (missing : bool) then
                  mret (Replied (status_sent (http_Error StatusNotFound w)), s, d)
                else
                  '(err, e, d) ← ApplyTransaction Upsert (Some feature) (engine s) d;
                  match err with
                  | Some _ =>
                      mret (Replied (status_sent (http_Error StatusInternalServerError w)),
                            mkStorage (leader s) e, d)
                  | None =>
                      mret (Replied (status_sent (WriteHeader StatusOK w)),
                            mkStorage (leader s) e, d)
                  end
            end
        end
    end.

Definition insertHandler (body : option string) (s : Storage) (d : Disk)
    : Outcome (Served * Storage * Disk) :=
  upsertHandler false body s d.

Definition replaceHandler (body : option string) (s : Storage) (d : Disk)
    : Outcome (Served * Storage * Disk) :=
  upsertHandler true body s d.

(** After a failed delete the handler does not return: it goes on to
    [WriteHeader(StatusOK)], which the writer ignores. *)
Definition deleteHandler (body : option string) (s : Storage) (d : Disk)
    : Outcome (Served * Storage * Disk) :=
  let w : ResponseWriter := None in
  if negb (leader s) then mret (Replied (status_sent w), s, d)
  else
    match body with
    | None => mret (Replied (status_sent (http_Error StatusBadRequest w)), s, d)
    | Some bytes =>
        match UnmarshalFeature bytes with
        | None => mret (Replied (status_sent (http_Error StatusBadRequest w)), s, d)
        | Some feature =>
            match ID feature with
            | Nil => mret (Replied (status_sent (http_Error StatusBadRequest w)), s, d)
            | Num _ => mret (Aborted NilDereference, s, d)
            | Str id =>
                found ← Exists id (engine s);
                if negb found then
                  mret (Replied (status_sent (http_Error StatusNotFound w)), s, d)
                else
                  '(err, e, d) ← ApplyTransaction Delete (Some feature) (engine s) d;
                  let w :=
                    match err with
                    | Some _ => http_Error StatusInternalServerError w
                    | None => w
                    end in
                  mret (Replied (status_sent (WriteHeader StatusOK w)),
                        mkStorage (leader s) e, d)
            end
        end
    end.

Definition snapshotHandler (s : Storage) (d : Disk) : Served * Storage * Disk :=
  let w : ResponseWriter := None in
  match makeSnapshot (engine s) d with
  | (Some _, d) => (Replied (status_sent (http_Error StatusInternalServerError w)), s, d)
  | (None, d) => (Replied (status_sent (WriteHeader StatusOK w)), s, d)
  end.

End handlers.

(** ** [parseRectParam] *)

(** [strings.Split(s, sep)] for a separator of one byte. *)
Fixpoint Split (sep : ascii) (s : string) : list string :=
  match s with
  | EmptyString => [EmptyString]
  | String c s =>
      match Split sep s with
      | p :: ps =>
          if Ascii.eqb c sep then EmptyString :: p :: ps
          else String c p :: ps
      | [] => []
      end
  end.

(** [strconv.ParseFloat(str, 64)], [None] for an error; the value on the grid
    of the coordinates. *)
Class Strconv : Type := {
  ParseFloat : string → option Z;
}.

Definition comma : ascii := ","%char.

Section rect_param.
Context `{conv : Strconv}.

(** The result is the array and a nil error, or [None] for either error. *)
Definition parseRectParam (rectParam : string) : option (Z * Z * Z * Z) :=
  let coordinates := Split comma rectParam in
  if negb (length coordinates =? 4)%nat then None
  else
    match coordinates with
    | [a; b; c; d] =>
        a ← ParseFloat a;
        b ← ParseFloat b;
        c ← ParseFloat c;
        d ← ParseFloat d;
        Some (a, b, c, d)
    | _ => None
    end.

End rect_param.

(** ** [filler] *)

(** The loop writes every index of the slice it is given. *)
Definition filler (b : list Byte.byte) (ifzero ifnot : Byte.byte) : list Byte.byte :=
  imap (λ i _, if decide (i = 0)%nat then ifzero else ifnot) b.

(** ** Sample values for the further runs *)

Module more_samples.
Import sample.

Definition local_engine : Engine :=
  Eval vm_compute in
    match Start (codec := refjson.codec) runtime
            [ApplyCommand tx1; ApplyCommand (mkTransaction Upsert "n1" 2 (feature "b" 5 5))]
            engine sample.disk with
    | Ret (_, e, _) => e
    | Panic _ => engine
    end.

Definition local_disk : Disk :=
  Eval vm_compute in
    match Start (codec := refjson.codec) runtime
            [ApplyCommand tx1; ApplyCommand (mkTransaction Upsert "n1" 2 (feature "b" 5 5))]
            engine sample.disk with
    | Ret (_, _, d) => d
    | Panic _ => sample.disk
    end.

(** An engine whose own clock entry is at the last [uint64]. *)
Definition worn_engine : Engine :=
  set_vclock {[ "n1" := uint64_max ]} engine.

(** A registry with a sound and a broken peer. *)
Definition mixed_registry : ReplicaRegistry :=
  Add "n3" (mkConn [] true) (Add "n2" (mkConn [] false) (NewReplicaRegistry "n1")).


(** The reader of request bodies of the runs: the feature part of the
    reference JSON. *)
#[export] Instance geo : GeoJSON := {|
  UnmarshalFeature := λ s,
    match refjson.dec_feature s with
    | Some (Some g, EmptyString) => Some g
    | _ => None
    end;
|}.

(** Decimal integers stand for the floats of the runs. *)
#[export] Instance conv : Strconv := {|
  ParseFloat := λ s,
    match refjson.dec_Z s with
    | Some (z, EmptyString) => Some z
    | _ => None
    end;
|}.

Definition body (id : any) (x y : Z) : option string :=
  refjson.enc_feature (Some (mkGeoFeature id (point x y) "")).

Definition node : Storage := mkStorage true local_engine.

End more_samples.

(** ** The records of a WAL file *)

Section records.
Context `{codec : JSON}.

(** The WAL file of [e] holds exactly the records of [txs], in this order (no
    file at all holds none). *)
Definition wal_records (e : Engine) (d : Disk) (txs : list Transaction) : Prop :=
  ∃ lines,
    Forall2 (λ tx line, Unmarshal_Transaction line = Some tx ∧ scannable line) txs lines ∧
    (files d !! walFile e = Some (wal_text lines) ∨
     (lines = [] ∧ files d !! walFile e = None)).

End records.

(** No byte of [s] is [sep]. *)
Fixpoint free_of (sep : ascii) (s : string) : bool :=
  match s with
  | EmptyString => true
  | String c s => negb (Ascii.eqb c sep) && free_of sep s
  end.

(** Four fields with commas between them. *)
Definition rect_text (a b c d : string) : string :=
  a +:+ String comma (b +:+ String comma (c +:+ String comma d)).

(** ** Sample values for the WAL and the requests *)

Module wal_samples.
Import sample.

(** Three writes, the second a repetition of the first. *)
Definition writes : list Transaction := [tx1; tx1; tx2].

(** A WAL of three lines, the second of which is no transaction. *)
Definition lines : list string :=
  [default "" (refjson.enc_Transaction tx1); "not a transaction";
   default "" (refjson.enc_Transaction tx2)].

Definition disk : Disk := mkDisk {[ "wal.txt" := wal_text lines ]} ∅ ∅ false.

(** The disk of the local run, with a snapshot path that cannot be written. *)
Definition guarded_disk : Disk :=
  mkDisk (files more_samples.local_disk) ∅ {[ "snapshot.json" ]} false.

(** Request bodies for a new id and for a stored one. *)
Definition new_body : string := default "" (more_samples.body (Str "c") 3 3).

End wal_samples.

(** * Properties *)

(** A closed statement about a concrete run is settled by running it. *)
Ltac computed := vm_compute; reflexivity.

(** ** Inversion in the [Outcome] monad *)

(** A run and what follows from it. *)
Lemma conj_then (P Q : Prop) : P → (P → Q) → P ∧ Q.
Proof. tauto. Defined.

Lemma bind_Ret_inv {A B : Type} (m : Outcome A) (f : A → Outcome B) (b : B) :
  m ≫= f = Ret b → ∃ a, m = Ret a ∧ f a = Ret b.
Proof. destruct m as [a|p]; simpl; [eauto | discriminate]. Qed.

Lemma deref_Ret_inv {A : Type} (p : option A) (a : A) :
  deref p = Ret a → p = Some a.
Proof. destruct p; simpl; congruence. Qed.

Lemma assert_string_Ret_inv (v : any) (s : string) :
  assert_string v = Ret s → v = Str s.
Proof. destruct v; simpl; congruence. Qed.

(** ** The apply step in memory *)

Lemma same_identity_refl e : same_identity e e.
Proof. by repeat split. Qed.

Lemma updateRTree_Ret g e e' :
  updateRTree g e = Ret e' →
  ∃ b id, Geometry g = Some b ∧ ID g = Str id ∧
          e' = set_rTree (rtree.Insert (fst b) (snd b) id (rTree e)) e.
Proof.
  unfold updateRTree, computeBoundsForRTree. intros H.
  destruct (Geometry g) as [b|]; simpl in H; [|discriminate].
  destruct (ID g) as [|id|]; simpl in H; try discriminate.
  injection H as <-. by exists b, id.
Qed.

Lemma deleteFromRTree_Ret g e e' :
  deleteFromRTree g e = Ret e' →
  ∃ b id, Geometry g = Some b ∧ ID g = Str id ∧
          e' = set_rTree (rtree.Delete (fst b) (snd b) id (rTree e)) e.
Proof.
  unfold deleteFromRTree, computeBoundsForRTree. intros H.
  destruct (Geometry g) as [b|]; simpl in H; [|discriminate].
  destruct (ID g) as [|id|]; simpl in H; try discriminate.
  injection H as <-. by exists b, id.
Qed.

Lemma applyTransaction_dominated tx e :
  (tx_Lsn tx ≤ vclock_at e (tx_Name tx))%N →
  applyTransaction tx e = Ret (false, None, e).
Proof.
  intros Hle. unfold applyTransaction.
  by destruct (N.leb_spec (tx_Lsn tx) (vclock_at e (tx_Name tx))); [|lia].
Qed.

(** A completed [applyTransaction] either found the transaction dominated and
    did nothing, or advanced the clock entry of its origin to its LSN. *)
Lemma applyTransaction_Ret tx e applied err e' :
  applyTransaction tx e = Ret (applied, err, e') →
  err = None ∧ same_identity e e' ∧ connections e' = connections e ∧
  ((applied = false ∧ e' = e ∧ (tx_Lsn tx ≤ vclock_at e (tx_Name tx))%N) ∨
   (applied = true ∧ (vclock_at e (tx_Name tx) < tx_Lsn tx)%N ∧
    vclock e' = <[tx_Name tx := tx_Lsn tx]> (vclock e))).
Proof.
  unfold applyTransaction.
  destruct (N.leb_spec (tx_Lsn tx) (vclock_at e (tx_Name tx))) as [Hle|Hlt].
  - intros [= <- <- <-]. split; [done|]. split; [apply same_identity_refl|].
    split; [done|]. by left.
  - intros H. apply bind_Ret_inv in H as (g & _ & H).
    apply bind_Ret_inv in H as (id & _ & H).
    repeat case_decide.
    + apply bind_Ret_inv in H as (e1 & Hup & H). injection H as <- <- <-.
      apply updateRTree_Ret in Hup as (b & id' & _ & _ & ->).
      repeat split; auto.
    + apply bind_Ret_inv in H as (e1 & Hdel & H). injection H as <- <- <-.
      apply deleteFromRTree_Ret in Hdel as (b & id' & _ & _ & ->).
      repeat split; auto.
    + injection H as <- <- <-. repeat split; auto.
Qed.

Section apply_path.
Context `{codec : JSON}.

(** The three ways [applyTransactionAndSave] completes. *)
Lemma applyTransactionAndSave_Ret tx e d err e' d' :
  applyTransactionAndSave tx e d = Ret (err, e', d') →
  (applyTransaction tx e = Ret (false, None, e) ∧ err = None ∧ e' = e ∧ d' = d) ∨
  (∃ e1, applyTransaction tx e = Ret (true, None, e1) ∧
     ((∃ werr, saveTransactionToWAL tx e1 d = (Some werr, d') ∧
               err = Some werr ∧ e' = e1) ∨
      (saveTransactionToWAL tx e1 d = (None, d') ∧ err = None ∧
       e' = set_connections (Broadcast tx (connections e1)) e1))).
Proof.
  unfold applyTransactionAndSave. intros H.
  apply bind_Ret_inv in H as ([[applied aerr] e1] & Happ & H).
  destruct (applyTransaction_Ret _ _ _ _ _ Happ) as (-> & _ & _ & Hcase).
  rewrite bool_decide_eq_false_2 in H by auto. simpl in H.
  destruct Hcase as [(-> & -> & _)|(-> & _ & _)]; simpl in H.
  - injection H as <- <- <-. by left.
  - right. exists e1. split; [done|].
    destruct (saveTransactionToWAL tx e1 d) as [[werr|] d1];
      injection H as <- <- <-; [left; eauto | right; eauto].
Qed.

End apply_path.

(** ** Failure of the WAL append (C1) *)

Section wal_append_failure.
Context `{codec : JSON}.

(** C1, amended.  When a transaction passes the dominance check and the WAL
    append then fails, the operation returns that error and sends nothing to
    the peers, and the engine keeps the state the apply step has produced:
    the clock entry of the origin is advanced to the LSN of the transaction
    (so the state differs from the one before), the map and the R-tree are
    those of [applyTransaction].  Nothing is rolled back. *)
Theorem wal_append_failure_keeps_mutation tx e d e1 err d1 :
  applyTransaction tx e = Ret (true, None, e1) →
  saveTransactionToWAL tx e1 d = (Some err, d1) →
  applyTransactionAndSave tx e d = Ret (Some err, e1, d1) ∧
  vclock e1 = <[tx_Name tx := tx_Lsn tx]> (vclock e) ∧
  (vclock_at e (tx_Name tx) < vclock_at e1 (tx_Name tx))%N ∧
  connections e1 = connections e.
Proof.
  intros Happ Hwal.
  destruct (applyTransaction_Ret _ _ _ _ _ Happ) as (_ & _ & Hconn & Hcase).
  destruct Hcase as [(Hf & _)|(_ & Hlt & Hv)]; [discriminate|].
  split.
  - unfold applyTransactionAndSave. rewrite Happ. simpl. by rewrite Hwal.
  - split; [done|]. split; [|done].
    unfold vclock_at at 2. by rewrite Hv, lookup_insert_eq.
Qed.

End wal_append_failure.

(** The run of C1's theorem: a first local upsert on a disk whose WAL cannot
    be created. *)
Lemma wal_append_failure_keeps_mutation_witness :
  ∃ e1,
    applyTransactionAndSave (codec := refjson.codec)
      sample.tx1 sample.engine wal_failure.readonly_disk
    = Ret (Some ENOENT, e1, wal_failure.readonly_disk) ∧
    vclock e1 = <["n1" := 1%N]> ∅ ∧
    (vclock_at sample.engine "n1" < vclock_at e1 "n1")%N ∧
    connections e1 = connections sample.engine.
Proof.
  eexists.
  apply (wal_append_failure_keeps_mutation (codec := refjson.codec)
           sample.tx1 sample.engine wal_failure.readonly_disk).
  - computed.
  - computed.
Defined.

(** C1 as stated fails: the append of the first local upsert fails, the
    operation returns the error, and the feature is in the map, its rectangle
    in the R-tree and its LSN in the vector clock all the same. *)
Lemma wal_append_failure_mutates_state :
  ∃ e1,
    applyTransactionAndSave (codec := refjson.codec)
      sample.tx1 sample.engine wal_failure.readonly_disk
    = Ret (Some ENOENT, e1, wal_failure.readonly_disk) ∧
    saveTransactionToWAL (codec := refjson.codec)
      sample.tx1 e1 wal_failure.readonly_disk
    = (Some ENOENT, wal_failure.readonly_disk) ∧
    data sample.engine !! "a" = None ∧
    data e1 !! "a" = Some (mkFeature "n1" 1 (sample.feature "a" 1 1)) ∧
    vclock sample.engine !! "n1" = None ∧
    vclock e1 !! "n1" = Some 1%N ∧
    multiplicity (((1, 1), (1, 1))%Z, "a") (rTree sample.engine) = 0 ∧
    multiplicity (((1, 1), (1, 1))%Z, "a") (rTree e1) = 1.
Proof.
  eexists. split; [computed|].
  repeat split; computed.
Qed.

(** ** Idempotence through dominance (C4) *)

Section idempotence.
Context `{codec : JSON}.

(** C4.  Once an application of [tx] has completed, whatever it returned,
    the clock entry of its origin is at least its LSN, and a second
    application returns no error and leaves the engine (map, R-tree, vector
    clock, peer sinks) and the disk (the WAL) exactly as they are. *)
Theorem apply_twice_is_apply_once tx e d err e1 d1 :
  applyTransactionAndSave tx e d = Ret (err, e1, d1) →
  (tx_Lsn tx ≤ vclock_at e1 (tx_Name tx))%N ∧
  applyTransactionAndSave tx e1 d1 = Ret (None, e1, d1).
Proof.
  intros H.
  assert (tx_Lsn tx ≤ vclock_at e1 (tx_Name tx))%N as Hdom.
  { apply applyTransactionAndSave_Ret in H
      as [(Happ & _ & -> & _)|(e0 & Happ & Hsave)].
    - apply applyTransaction_Ret in Happ as (_ & _ & _ & Hcase).
      by destruct Hcase as [(_ & _ & Hle)|(Hf & _)].
    - apply applyTransaction_Ret in Happ as (_ & _ & _ & Hcase).
      destruct Hcase as [(Hf & _)|(_ & _ & Hv)]; [discriminate|].
      assert (vclock e1 = vclock e0) as Hsame.
      { by destruct Hsave as [(werr & _ & _ & ->)|(_ & _ & ->)]. }
      unfold vclock_at. rewrite Hsame, Hv, lookup_insert_eq. simpl. lia. }
  split; [done|].
  unfold applyTransactionAndSave.
  by rewrite (applyTransaction_dominated _ _ Hdom).
Qed.

End idempotence.

(** The run of C4's theorem: the second local upsert of the sample, applied
    to a fresh engine twice. *)
Lemma apply_twice_is_apply_once_witness :
  ∃ e1 d1,
    applyTransactionAndSave (codec := refjson.codec) sample.tx2 sample.engine sample.disk
    = Ret (None, e1, d1) ∧
    (tx_Lsn sample.tx2 ≤ vclock_at e1 (tx_Name sample.tx2))%N ∧
    applyTransactionAndSave (codec := refjson.codec) sample.tx2 e1 d1
    = Ret (None, e1, d1).
Proof.
  eexists _, _.
  apply conj_then.
  - computed.
  - intros Hfirst.
    exact (apply_twice_is_apply_once (codec := refjson.codec) _ _ _ _ _ _ Hfirst).
Defined.

(** ** The unchecked id assertion (C9) *)

Lemma applyTransaction_dominant tx e :
  dominant tx e →
  applyTransaction tx e =
    (let e := set_vclock (<[tx_Name tx := tx_Lsn tx]> (vclock e)) e in
     feature ← deref (tx_Feature tx);
     id ← assert_string (ID feature);
     if decide (tx_Action tx = Upsert) then
       let e := set_data (<[id := mkFeature (tx_Name tx) (tx_Lsn tx) (tx_Feature tx)]> (data e)) e in
       e ← updateRTree feature e;
       mret (true, None, e)
     else if decide (tx_Action tx = Delete) then
       let e := set_data (delete id (data e)) e in
       e ← deleteFromRTree feature e;
       mret (true, None, e)
     else
       mret (true, None, e)).
Proof.
  unfold dominant, applyTransaction. intros Hlt.
  by destruct (N.leb_spec (tx_Lsn tx) (vclock_at e (tx_Name tx))); [lia|].
Qed.

Section id_assertion.
Context `{codec : JSON}.

(** C9.  For a dominant transaction whose payload id is a string the apply
    path never fails in the id assertion, and it completes when the payload
    also has a geometry; for a dominant transaction whose payload id is not
    a string (absent, or a number) the assertion [tx.Feature.ID.(string)]
    panics, and there are such transactions: the engine does not check the
    id itself. *)
Theorem apply_needs_string_id :
  (∀ tx e d g id,
     dominant tx e → tx_Feature tx = Some g → ID g = Str id →
     applyTransaction tx e ≠ Panic InterfaceConversion ∧
     applyTransactionAndSave tx e d ≠ Panic InterfaceConversion ∧
     (is_Some (Geometry g) →
      ∃ err e' d', applyTransactionAndSave tx e d = Ret (err, e', d'))) ∧
  (∀ tx e d g,
     dominant tx e → tx_Feature tx = Some g → (∀ id, ID g ≠ Str id) →
     applyTransaction tx e = Panic InterfaceConversion ∧
     applyTransactionAndSave tx e d = Panic InterfaceConversion) ∧
  (∃ tx e d g,
     dominant tx e ∧ tx_Feature tx = Some g ∧ ID g = Nil ∧
     applyTransactionAndSave tx e d = Panic InterfaceConversion).
Proof.
  split; [|split].
  - intros tx e d g id Hdom Hg Hid.
    assert (applyTransaction tx e = Panic NilDereference ∧ Geometry g = None ∨
            ∃ e', applyTransaction tx e = Ret (true, None, e')) as Happ.
    { rewrite (applyTransaction_dominant _ _ Hdom). simpl.
      rewrite Hg. simpl. rewrite Hid. simpl.
      unfold updateRTree, deleteFromRTree, computeBoundsForRTree.
      destruct (Geometry g) as [b|]; simpl; rewrite ?Hid; simpl;
        repeat case_decide; simpl; eauto. }
    split; [|split].
    + destruct Happ as [[-> _]|[e' ->]]; discriminate.
    + unfold applyTransactionAndSave.
      destruct Happ as [[-> _]|[e' ->]]; simpl; [discriminate|].
      by destruct (saveTransactionToWAL tx e' d) as [[werr|] d'].
    + intros [b Hb]. unfold applyTransactionAndSave.
      destruct Happ as [[_ Hnone]|[e' ->]]; [congruence|]. simpl.
      destruct (saveTransactionToWAL tx e' d) as [[werr|] d']; eauto.
  - intros tx e d g Hdom Hg Hid.
    assert (applyTransaction tx e = Panic InterfaceConversion) as Happ.
    { rewrite (applyTransaction_dominant _ _ Hdom). simpl.
      rewrite Hg. simpl.
      destruct (ID g) as [|id|n]; simpl; [done| |done].
      by destruct (Hid id). }
    split; [done|]. unfold applyTransactionAndSave. by rewrite Happ.
  - exists bad_id.without_id, sample.engine, sample.disk, (mkGeoFeature Nil (sample.point 1 1) "").
    split; [computed|]. by repeat split.
Qed.

End id_assertion.

(** The run of C9's theorem: the first sample upsert completes, the upsert
    with a numeric id panics. *)
Lemma apply_needs_string_id_witness :
  (∃ err e' d',
     applyTransactionAndSave (codec := refjson.codec) sample.tx1 sample.engine sample.disk
     = Ret (err, e', d')) ∧
  applyTransactionAndSave (codec := refjson.codec) bad_id.numeric_id sample.engine sample.disk
  = Panic InterfaceConversion.
Proof.
  destruct (apply_needs_string_id (codec := refjson.codec)) as (Hstr & Hbad & _).
  split.
  - apply (Hstr sample.tx1 sample.engine sample.disk
             (mkGeoFeature (Str "a") (sample.point 1 1) "") "a");
      [computed | reflexivity | reflexivity |].
    eexists. reflexivity.
  - apply (Hbad bad_id.numeric_id sample.engine sample.disk
             (mkGeoFeature (Num 7) (sample.point 1 1) ""));
      [computed | reflexivity | intros id; discriminate].
Defined.

(** ** A snapshot without a WAL file (C10) *)

Section snapshot_files.
Context `{codec : JSON}.

Lemma saveSnapshot_ok e d d1 :
  saveSnapshot e d = (None, d1) →
  ∃ bytes, Marshal_data (data e) = Some bytes ∧
           d1 = set_files (<[snapshotFile e := bytes]> (files d)) d.
Proof.
  unfold saveSnapshot. intros H.
  destruct (Marshal_data (data e)) as [bytes|]; [|discriminate].
  exists bytes. split; [done|].
  assert (∀ d0, files d0 = files d ∨ files d0 = <[snapshotFile e := ""]> (files d) →
                noread d0 = noread d → nowrite d0 = nowrite d → full d0 = full d →
                os.WriteFile (snapshotFile e) bytes d0 = (None, d1) →
                d1 = set_files (<[snapshotFile e := bytes]> (files d)) d) as Hwrite.
  { intros d0 Hfiles Hnr Hnw Hfull. unfold os.WriteFile, set_files.
    rewrite Hnr, Hnw, Hfull. intros Hw.
    repeat case_match; try discriminate; injection Hw as <-;
      (destruct Hfiles as [->| ->]; [done|]; by rewrite insert_insert_eq). }
  unfold os.Stat, os.MkdirAll_Create in H.
  destruct (files d !! snapshotFile e); [by apply (Hwrite d); auto|].
  case_decide; [by apply (Hwrite d); auto|].
  by apply (Hwrite (set_files (<[snapshotFile e := ""]> (files d)) d)); auto.
Qed.

(** C10.  When the snapshot is written (its text is in the snapshot file)
    and there is no WAL file, [makeSnapshot] still returns an error: the
    truncation opens the WAL without creating it, and fails with "no such
    file". *)
Theorem snapshot_without_wal_is_an_error e d d1 :
  saveSnapshot e d = (None, d1) →
  files d !! walFile e = None →
  snapshotFile e ≠ walFile e →
  makeSnapshot e d = (Some ENOENT, d1) ∧
  Execute SnapshotCommand e d = Ret (Err (Some ENOENT), e, d1) ∧
  clearWAL e d1 = (Some ENOENT, d1) ∧
  files d1 !! snapshotFile e = Marshal_data (data e) ∧
  files d1 !! walFile e = None.
Proof.
  intros Hsave Hwal Hne.
  destruct (saveSnapshot_ok _ _ _ Hsave) as (bytes & Hbytes & ->).
  assert (files (set_files (<[snapshotFile e := bytes]> (files d)) d) !! walFile e = None)
    as Hwal'.
  { simpl. by rewrite lookup_insert_ne. }
  assert (clearWAL e (set_files (<[snapshotFile e := bytes]> (files d)) d)
          = (Some ENOENT, set_files (<[snapshotFile e := bytes]> (files d)) d)) as Hclear.
  { unfold clearWAL, os.OpenFile_trunc. by rewrite Hwal'. }
  assert (makeSnapshot e d
          = (Some ENOENT, set_files (<[snapshotFile e := bytes]> (files d)) d)) as Hmake.
  { unfold makeSnapshot. by rewrite Hsave. }
  split; [done|]. split; [simpl; by rewrite Hmake|].
  split; [done|]. split; [|done].
  simpl. by rewrite lookup_insert_eq.
Qed.

End snapshot_files.

(** The run of C10's theorem: a snapshot of the fresh engine on the empty
    disk. *)
Lemma snapshot_without_wal_is_an_error_witness :
  ∃ d1,
    makeSnapshot (codec := refjson.codec) sample.engine sample.disk = (Some ENOENT, d1) ∧
    Execute (codec := refjson.codec) SnapshotCommand sample.engine sample.disk
    = Ret (Err (Some ENOENT), sample.engine, d1) ∧
    clearWAL sample.engine d1 = (Some ENOENT, d1) ∧
    files d1 !! "snapshot.json" = Some "{}" ∧
    files d1 !! "wal.txt" = None.
Proof.
  eexists.
  apply (snapshot_without_wal_is_an_error (codec := refjson.codec) sample.engine sample.disk).
  - computed.
  - reflexivity.
  - discriminate.
Defined.

(** ** Broadcast authority (C6) *)

Lemma Broadcast_name tx r : r_name (Broadcast tx r) = r_name r.
Proof. unfold Broadcast. by case_decide. Qed.

Lemma written_nil conn : written [] conn = conn.
Proof. destruct conn. unfold written. simpl. by rewrite app_nil_r. Qed.

Lemma written_app l1 l2 conn : written l2 (written l1 conn) = written (l1 ++ l2) conn.
Proof. unfold written. simpl. by rewrite app_assoc. Qed.

Lemma Broadcast_connections tx r :
  r_connections (Broadcast tx r)
  = written (frames_of (r_name r) tx) <$> r_connections r.
Proof.
  unfold Broadcast, frames_of. repeat case_decide; try congruence; simpl.
  - symmetry. rewrite <- (map_fmap_id (r_connections r)) at 2.
    apply map_fmap_ext. intros ? conn _. apply written_nil.
  - done.
Qed.

Section authority.
Context `{codec : JSON}.

(** C6.  [Broadcast] of a transaction stamped with the registry's own name
    hands it to every registered connection exactly once (each write log
    grows by this one frame, no connection is added or dropped by the call);
    [Broadcast] of a transaction of another origin changes nothing; and a
    transaction of another origin applied through [ApplyTransactionRaw]
    leaves the registry of the engine as it was. *)
Theorem broadcast_only_own_origin tx :
  (∀ r, tx_Name tx = r_name r →
     dom (r_connections (Broadcast tx r)) = dom (r_connections r) ∧
     ∀ replica conn,
       r_connections r !! replica = Some conn →
       r_connections (Broadcast tx r) !! replica
       = Some (mkConn (writes conn ++ [tx]) (broken conn))) ∧
  (∀ r, tx_Name tx ≠ r_name r → Broadcast tx r = r) ∧
  (∀ e d err e' d',
     r_name (connections e) = name e → tx_Name tx ≠ name e →
     ApplyTransactionRaw tx e d = Ret (err, e', d') →
     connections e' = connections e).
Proof.
  split; [|split].
  - intros r Hown. rewrite Broadcast_connections. split.
    + apply dom_fmap_L.
    + intros replica conn Hconn. rewrite lookup_fmap, Hconn. simpl.
      unfold frames_of. by rewrite decide_True.
  - intros r Hother. unfold Broadcast. by rewrite decide_True.
  - intros e d err e' d' Hname Hother Happly.
    unfold ApplyTransactionRaw in Happly.
    apply applyTransactionAndSave_Ret in Happly
      as [(_ & _ & -> & _)|(e1 & Happ & Hsave)]; [done|].
    apply applyTransaction_Ret in Happ as (_ & _ & Hconn & _).
    destruct Hsave as [(werr & _ & _ & ->)|(_ & _ & ->)]; [done|].
    simpl. rewrite Hconn. unfold Broadcast.
    rewrite decide_True; [done | congruence].
Qed.

End authority.

(** The run of C6's theorem: with two sinks connected, an own transaction
    reaches each of them once, a foreign one none. *)
Lemma broadcast_only_own_origin_witness :
  r_connections (Broadcast sample.tx1 two_sinks.registry) !! "n2"
    = Some (mkConn [sample.tx1] false) ∧
  r_connections (Broadcast sample.tx1 two_sinks.registry) !! "n3"
    = Some (mkConn [sample.tx1] false) ∧
  Broadcast two_sinks.foreign two_sinks.registry = two_sinks.registry ∧
  ∃ e' d',
    ApplyTransactionRaw (codec := refjson.codec) two_sinks.foreign two_sinks.engine sample.disk
    = Ret (None, e', d') ∧
    connections e' = connections two_sinks.engine.
Proof.
  destruct (broadcast_only_own_origin (codec := refjson.codec) sample.tx1) as (Hown & _ & _).
  destruct (broadcast_only_own_origin (codec := refjson.codec) two_sinks.foreign)
    as (_ & Hother & Hraw).
  destruct (Hown two_sinks.registry eq_refl) as [_ Hsinks].
  split; [exact (Hsinks "n2" (mkConn [] false) eq_refl)|].
  split; [exact (Hsinks "n3" (mkConn [] false) eq_refl)|].
  split; [apply Hother; discriminate|].
  eexists _, _.
  apply conj_then; [computed|].
  intros Hrun.
  exact (Hraw two_sinks.engine sample.disk _ _ _ eq_refl ltac:(discriminate) Hrun).
Defined.

(** ** The broadcast at start-up (C8) *)





(** [broadcast_each] changes the registry only, and there the write logs. *)
Lemma broadcast_each_frame txs e :
  same_identity e (broadcast_each txs e) ∧
  data (broadcast_each txs e) = data e ∧
  rTree (broadcast_each txs e) = rTree e ∧
  vclock (broadcast_each txs e) = vclock e ∧
  r_name (connections (broadcast_each txs e)) = r_name (connections e).
Proof.
  revert e. induction txs as [|tx txs IH]; intros e; simpl.
  - by repeat split.
  - destruct (IH (set_connections (Broadcast tx (connections e)) e))
      as ((?&?&?&?) & ? & ? & ? & Hn).
    repeat split; try done. rewrite Hn. simpl. apply Broadcast_name.
Qed.


(** ** What the phases of [Start] leave alone *)

Lemma foldM_inv {A S : Type} (P : S → Prop) (body : A → S → Outcome S) l s s' :
  (∀ a s s', P s → body a s = Ret s' → P s') →
  P s → foldM body l s = Ret s' → P s'.
Proof.
  intros Hbody. revert s. induction l as [|a l IH]; intros s Hs H; simpl in H.
  - by injection H as <-.
  - apply bind_Ret_inv in H as (s1 & H1 & H). eauto.
Qed.

Lemma restoreRTree_Ret e e' : restoreRTree e = Ret e' → same_but_rTree e e'.
Proof.
  unfold restoreRTree.
  apply (foldM_inv (same_but_rTree e)).
  - intros kf e1 e2 (Hid & Hc & Hd & Hv) H.
    apply bind_Ret_inv in H as (g & _ & H).
    apply updateRTree_Ret in H as (b & id & _ & _ & ->).
    by repeat split; try apply Hid.
  - repeat split.
Qed.

Lemma connectToReplicas_frame rt e :
  same_identity e (connectToReplicas rt e) ∧
  data (connectToReplicas rt e) = data e ∧
  rTree (connectToReplicas rt e) = rTree e ∧
  vclock (connectToReplicas rt e) = vclock e ∧
  r_name (connections (connectToReplicas rt e)) = r_name (connections e).
Proof.
  unfold connectToReplicas.
  assert (∀ l e0,
    let e1 := foldl (λ e replica,
                match Dial rt replica with
                | None => e
                | Some conn => set_connections (Add replica conn (connections e)) e
                end) e0 l in
    replicas e1 = replicas e0 ∧ name e1 = name e0 ∧
    snapshotFile e1 = snapshotFile e0 ∧ walFile e1 = walFile e0 ∧
    data e1 = data e0 ∧ rTree e1 = rTree e0 ∧ vclock e1 = vclock e0 ∧
    r_name (connections e1) = r_name (connections e0)) as Hgen.
  { induction l as [|replica l IH]; intros e0; simpl; [by repeat split|].
    destruct (Dial rt replica) as [conn|]; [|apply IH].
    destruct (IH (set_connections (Add replica conn (connections e0)) e0))
      as (?&?&?&?&?&?&?&?).
    by repeat split. }
  destruct (Hgen (replicas e) e) as (?&?&?&?&?&?&?&?).
  by repeat split.
Qed.

Section startup.
Context `{codec : JSON}.

Lemma loadSnapshot_frame e d :
  same_identity e (snd (loadSnapshot e d)) ∧
  connections (snd (loadSnapshot e d)) = connections e ∧
  rTree (snd (loadSnapshot e d)) = rTree e ∧
  vclock (snd (loadSnapshot e d)) = vclock e.
Proof.
  unfold loadSnapshot. repeat case_match; simpl; by repeat split.
Qed.


End startup.



(** The same restart, computed: of the three stored features the peer n2 is
    sent the two of origin n1, the older first. *)
Example startup_sends_own_features_in_order :
  ∃ e',
    recover (codec := refjson.codec) sample.runtime sample.engine restart.disk = Ret e' ∧
    dom (data e') = {["a"; "b"; "c"]} ∧
    r_connections (connections e') !! "n2"
    = Some (mkConn [ mkTransaction Upsert "n1" 2 (sample.feature "b" 5 5);
                     mkTransaction Upsert "n1" 3 (sample.feature "a" 9 9) ] false).
Proof.
  eexists. split; [computed|].
  split; computed.
Qed.

(** ** The vector clock dominates the stored LSNs (C3) *)

(** The effect of an applied transaction on the map and on the R-tree. *)
Lemma applyTransaction_applied tx e err e' :
  applyTransaction tx e = Ret (true, err, e') →
  ∃ g id,
    tx_Feature tx = Some g ∧ ID g = Str id ∧
    ((tx_Action tx = Upsert ∧
      ∃ b, Geometry g = Some b ∧
           data e' = <[id := mkFeature (tx_Name tx) (tx_Lsn tx) (tx_Feature tx)]> (data e) ∧
           rTree e' = rtree.Insert (fst b) (snd b) id (rTree e)) ∨
     (tx_Action tx = Delete ∧
      ∃ b, Geometry g = Some b ∧
           data e' = delete id (data e) ∧
           rTree e' = rtree.Delete (fst b) (snd b) id (rTree e)) ∨
     (tx_Action tx ≠ Upsert ∧ tx_Action tx ≠ Delete ∧
      data e' = data e ∧ rTree e' = rTree e)).
Proof.
  unfold applyTransaction.
  destruct (N.leb_spec (tx_Lsn tx) (vclock_at e (tx_Name tx))) as [Hle|Hlt];
    [discriminate|].
  intros H. apply bind_Ret_inv in H as (g & Hg & H).
  apply bind_Ret_inv in H as (id & Hid & H).
  apply deref_Ret_inv in Hg. apply assert_string_Ret_inv in Hid.
  exists g, id. split; [done|]. split; [done|].
  repeat case_decide.
  - left. split; [done|].
    apply bind_Ret_inv in H as (e1 & Hup & H). injection H as _ <-.
    apply updateRTree_Ret in Hup as (b & id' & Hb & Hid' & ->).
    assert (id' = id) as -> by congruence. by exists b.
  - right; left. split; [done|].
    apply bind_Ret_inv in H as (e1 & Hdel & H). injection H as _ <-.
    apply deleteFromRTree_Ret in Hdel as (b & id' & Hb & Hid' & ->).
    assert (id' = id) as -> by congruence. by exists b.
  - right; right. injection H as _ <-. by repeat split.
Qed.

Lemma applyTransaction_dominates tx e applied err e' :
  vclock_dominates e →
  applyTransaction tx e = Ret (applied, err, e') →
  vclock_dominates e'.
Proof.
  intros Hinv Happ.
  destruct (applyTransaction_Ret _ _ _ _ _ Happ) as (_ & _ & _ & Hcase).
  destruct Hcase as [(_ & -> & _)|(-> & Hlt & Hv)]; [done|].
  assert (∀ F, (f_LSN F ≤ vclock_at e (f_Name F))%N →
               (f_LSN F ≤ vclock_at e' (f_Name F))%N) as Hmono.
  { intros F HF. unfold vclock_at at 1. rewrite Hv.
    destruct (decide (tx_Name tx = f_Name F)) as [Heq|Hne].
    - rewrite Heq, lookup_insert_eq. simpl. rewrite Heq in Hlt. lia.
    - by rewrite lookup_insert_ne. }
  assert (vclock_at e' (tx_Name tx) = tx_Lsn tx) as Hown.
  { unfold vclock_at. by rewrite Hv, lookup_insert_eq. }
  apply applyTransaction_applied in Happ as (g & id & _ & _ & Hcase).
  unfold vclock_dominates.
  destruct Hcase as [(_ & b & _ & -> & _)|[(_ & b & _ & -> & _)|(_ & _ & -> & _)]].
  - apply map_Forall_insert_2; [simpl; lia|].
    eapply map_Forall_impl; [exact Hinv|]. intros ? F. apply Hmono.
  - apply map_Forall_delete.
    eapply map_Forall_impl; [exact Hinv|]. intros ? F. apply Hmono.
  - eapply map_Forall_impl; [exact Hinv|]. intros ? F. apply Hmono.
Qed.

Lemma vclock_dominates_ext e e' :
  data e' = data e → vclock e' = vclock e →
  vclock_dominates e → vclock_dominates e'.
Proof.
  unfold vclock_dominates, vclock_at. by intros -> ->.
Qed.

Section clock_invariant.
Context `{codec : JSON}.






End clock_invariant.



(** ** What does hold between the data map and the R-tree *)

Lemma applyTransaction_indexed tx e applied err e' :
  indexed e →
  applyTransaction tx e = Ret (applied, err, e') →
  indexed e'.
Proof.
  intros Hinv Happ.
  destruct (applyTransaction_Ret _ _ _ _ _ Happ) as (_ & _ & _ & Hcase).
  destruct Hcase as [(_ & -> & _)|(-> & _ & _)]; [done|].
  apply applyTransaction_applied in Happ as (g & id & Hg & Hid & Hcase).
  unfold indexed.
  destruct Hcase as [(_ & b & Hb & -> & ->)|[(_ & b & Hb & -> & ->)|(_ & _ & -> & ->)]].
  - apply map_Forall_insert_2.
    + exists g, b. simpl. repeat split; try done.
      unfold rtree.Insert. destruct b. simpl. multiset_solver.
    + eapply map_Forall_impl; [exact Hinv|].
      intros j F (g' & b' & ? & ? & ? & Hin). exists g', b'.
      repeat split; try done. unfold rtree.Insert. multiset_solver.
  - intros j F Hj. apply lookup_delete_Some in Hj as [Hne Hj].
    destruct (Hinv j F Hj) as (g' & b' & ? & ? & ? & Hin). exists g', b'.
    repeat split; try done. unfold rtree.Delete.
    assert ((b', j) ≠ ((fst b, snd b), id)) as Hother by congruence.
    multiset_solver.
  - done.
Qed.

Lemma indexed_ext e e' :
  data e' = data e → rTree e' = rTree e → indexed e → indexed e'.
Proof. unfold indexed. by intros -> ->. Qed.

Lemma indexed_indexable e :
  indexed e → map_Forall (λ _ F, indexable F = true) (data e).
Proof.
  intros Hinv id F HF. destruct (Hinv id F HF) as (g & b & Hg & Hid & Hb & _).
  unfold indexable. by rewrite Hg, Hid, Hb.
Qed.

Section index_invariant.
Context `{codec : JSON}.

Lemma Execute_indexed cmd e d r e' d' :
  indexed e → Execute cmd e d = Ret (r, e', d') → indexed e'.
Proof.
  intros Hinv H. destruct cmd; simpl in H.
  - apply bind_Ret_inv in H as (m & _ & H). by injection H as _ <- _.
  - apply bind_Ret_inv in H as (m & _ & H). by injection H as _ <- _.
  - apply bind_Ret_inv in H as (m & _ & H). by injection H as _ <- _.
  - apply bind_Ret_inv in H as ([[err e1] d1] & Happly & H).
    injection H as _ <- _.
    apply applyTransactionAndSave_Ret in Happly
      as [(_ & _ & -> & _)|(e0 & Happ & Hsave)]; [done|].
    pose proof (applyTransaction_indexed _ _ _ _ _ Hinv Happ) as Hinv0.
    destruct Hsave as [(werr & _ & _ & ->)|(_ & _ & ->)]; [done|].
    by apply (indexed_ext e0).
  - destruct (makeSnapshot e d). by injection H as _ <- _.
Qed.

Lemma serve_indexed cmds e d rs e' d' :
  indexed e → serve cmds e d = Ret (rs, e', d') → indexed e'.
Proof.
  revert e d rs e' d'.
  induction cmds as [|cmd cmds IH]; intros e d rs e' d' Hinv H; simpl in H.
  - by injection H as _ <- _.
  - apply bind_Ret_inv in H as ([[r e1] d1] & Hcmd & H).
    apply bind_Ret_inv in H as ([[rs1 e2] d2] & Hrest & H).
    injection H as _ <- _.
    eapply IH; [|exact Hrest]. eapply Execute_indexed; eauto.
Qed.

Lemma applyWAL_indexed wal e e' :
  indexed e → applyWAL wal e = Ret e' → indexed e'.
Proof.
  unfold applyWAL. apply foldM_inv.
  intros tx e1 e2 Hinv H.
  apply bind_Ret_inv in H as ([[applied err] e3] & Happ & H). injection H as <-.
  eapply applyTransaction_indexed; eauto.
Qed.

(** In every state a fresh engine reaches through [Start] without a
    snapshot, each stored feature has its entry in the R-tree: the half of
    the correspondence between map and R-tree that the code keeps. *)
Lemma Start_indexed_without_snapshot rt cmds self peers snapshot wal d rs e' d' :
  data (snd (loadSnapshot (NewEngine self peers snapshot wal) d)) = ∅ →
  Start rt cmds (NewEngine self peers snapshot wal) d = Ret (rs, e', d') →
  indexed e'.
Proof.
  intros Hnone H. unfold Start in H.
  apply bind_Ret_inv in H as (e5 & Hrec & Hserve).
  eapply serve_indexed; [|exact Hserve].
  unfold recover in Hrec.
  destruct (loadSnapshot (NewEngine self peers snapshot wal) d) as [serr e1].
  simpl in Hnone.
  apply bind_Ret_inv in Hrec as (e2 & Hrestore & Hrec).
  destruct (loadWAL e2 d) as [wal' werr].
  apply bind_Ret_inv in Hrec as (e3 & Hreplay & Hrec).
  injection Hrec as <-.
  assert (indexed e2) as Hinv2.
  { apply restoreRTree_Ret in Hrestore as (_ & _ & Hd2 & _).
    unfold indexed. rewrite Hd2, Hnone. apply map_Forall_empty. }
  pose proof (applyWAL_indexed _ _ _ Hinv2 Hreplay) as Hinv3.
  destruct (connectToReplicas_frame rt e3) as (_ & Hd4 & Hr4 & _).
  pose proof (indexed_ext _ _ Hd4 Hr4 Hinv3) as Hinv4.
  unfold broadcastAllData.
  destruct (broadcast_each_frame (allDataTransactions rt (connectToReplicas rt e3))
              (connectToReplicas rt e3)) as (_ & Hd5 & Hr5 & _).
  exact (indexed_ext _ _ Hd5 Hr5 Hinv4).
Qed.

End index_invariant.

(** ** Snapshot and restart (C5) *)

Lemma foldM_total {A S : Type} (body : A → S → Outcome S) l s :
  Forall (λ a, ∀ s, ∃ s', body a s = Ret s') l →
  ∃ s', foldM body l s = Ret s'.
Proof.
  intros Hall. revert s. induction Hall as [|a l Ha _ IH]; intros s; simpl.
  - by exists s.
  - destruct (Ha s) as [s1 ->]. simpl. apply IH.
Qed.

Lemma restoreRTree_indexable e :
  map_Forall (λ _ F, indexable F = true) (data e) →
  ∃ e', restoreRTree e = Ret e'.
Proof.
  intros Hall. unfold restoreRTree. apply foldM_total.
  apply Forall_forall. intros [id F] Hin e1.
  apply elem_of_map_to_list in Hin.
  specialize (Hall id F Hin). unfold indexable in Hall. simpl.
  destruct (f_Feature F) as [g|]; [|discriminate]. simpl.
  unfold updateRTree, computeBoundsForRTree.
  destruct (ID g) as [|s|]; try discriminate.
  destruct (Geometry g) as [b|]; [|discriminate].
  simpl. eauto.
Qed.

Section snapshot_restart_proof.
Context `{codec : JSON}.

Lemma makeSnapshot_ok e d d1 :
  makeSnapshot e d = (None, d1) →
  ∃ bytes,
    Marshal_data (data e) = Some bytes ∧
    d1 = set_files (<[walFile e := ""]> (<[snapshotFile e := bytes]> (files d))) d ∧
    walFile e ∉ noread d.
Proof.
  unfold makeSnapshot. intros H.
  destruct (saveSnapshot e d) as [[serr|] d0] eqn:Hsave; [discriminate|].
  apply saveSnapshot_ok in Hsave as (bytes & Hbytes & ->).
  exists bytes. split; [done|].
  unfold clearWAL, os.OpenFile_trunc in H. simpl in H.
  destruct (<[snapshotFile e := bytes]> (files d) !! walFile e); [|discriminate].
  case_decide as Hperm; [discriminate|].
  injection H as <-. split; [done|]. tauto.
Qed.

(** C5, amended.  After a successful [makeSnapshot] the WAL file is empty,
    and a fresh engine with the same name and paths, started on the disk
    the snapshot has left, reaches its command loop with the same data map
    (provided the snapshot text reads back as the map it was written from,
    the snapshot file may be read, and it is not also the WAL file).  Its
    vector clock is empty: the snapshot holds the data map alone, and [Start]
    takes no clock entry from it. *)
Theorem snapshot_then_restart rt e d d1 :
  makeSnapshot e d = (None, d1) →
  snapshotFile e ≠ walFile e →
  snapshotFile e ∉ noread d →
  (∀ bytes, Marshal_data (data e) = Some bytes → Unmarshal_data bytes = (data e, None)) →
  map_Forall (λ _ F, indexable F = true) (data e) →
  files d1 !! walFile e = Some "" ∧
  ∃ e',
    recover rt (NewEngine (name e) (replicas e) (snapshotFile e) (walFile e)) d1 = Ret e' ∧
    data e' = data e ∧
    vclock e' = ∅.
Proof.
  intros Hsnap Hpaths Hread Hround Hidx.
  apply makeSnapshot_ok in Hsnap as (bytes & Hbytes & -> & Hwread).
  split; [simpl; by rewrite lookup_insert_eq|].
  set (d1 := set_files _ d).
  set (e0 := NewEngine (name e) (replicas e) (snapshotFile e) (walFile e)).
  assert (loadSnapshot e0 d1 = (None, set_data (data e) e0)) as Hload.
  { unfold loadSnapshot, os.Stat, os.ReadFile. simpl.
    rewrite lookup_insert_ne, lookup_insert_eq by done.
    rewrite decide_False by done.
    rewrite (Hround _ Hbytes). by rewrite (right_id_L ∅ (∪)). }
  destruct (restoreRTree_indexable (set_data (data e) e0) Hidx) as [e2 Hrestore].
  destruct (restoreRTree_Ret _ _ Hrestore) as ((_ & _ & _ & Hwal2) & _ & Hd2 & Hv2).
  assert (loadWAL e2 d1 = ([], None)) as Hwal.
  { unfold loadWAL, os.ReadFile. rewrite Hwal2. simpl.
    rewrite lookup_insert_eq. by rewrite decide_False. }
  unfold recover. rewrite Hload, Hrestore. simpl. rewrite Hwal. simpl.
  eexists. split; [reflexivity|].
  unfold broadcastAllData.
  destruct (broadcast_each_frame (allDataTransactions rt (connectToReplicas rt e2))
              (connectToReplicas rt e2)) as (_ & -> & _ & -> & _).
  destruct (connectToReplicas_frame rt e2) as (_ & -> & _ & -> & _).
  by rewrite Hd2, Hv2.
Qed.

End snapshot_restart_proof.

(** The run of C5's theorem: the sample engine after one local write takes a
    snapshot and a fresh engine starts from it. *)
Lemma snapshot_then_restart_witness :
  ∃ d0 d1,
    makeSnapshot (codec := refjson.codec) snapshot_restart.engine_before d0 = (None, d1) ∧
    files d1 !! "wal.txt" = Some "" ∧
    ∃ e',
      recover (codec := refjson.codec) sample.runtime sample.engine d1 = Ret e' ∧
      data e' = data snapshot_restart.engine_before ∧
      vclock e' = ∅.
Proof.
  exists snapshot_restart.disk. eexists.
  apply conj_then; [computed|].
  intros Hsnap.
  apply (snapshot_then_restart (codec := refjson.codec) sample.runtime
           snapshot_restart.engine_before snapshot_restart.disk _ Hsnap).
  - discriminate.
  - vm_compute. discriminate.
  - intros bytes Hbytes. vm_compute in Hbytes. injection Hbytes as <-.
    computed.
  - apply (bool_decide_unpack _). vm_compute. exact I.
Defined.

(** C5 as stated fails: the engine that has written one feature has the
    clock entry n1 = 1; it takes a snapshot, which succeeds and empties the
    WAL; the engine restarted from the disk has the same data map and no clock
    entry at all. *)
Lemma restart_from_snapshot_loses_vclock :
  ∃ rs e d e',
    snapshot_restart.before = Ret (rs, e, d) ∧
    rs = [Err None; Err None] ∧
    files d !! "wal.txt" = Some "" ∧
    recover (codec := refjson.codec) sample.runtime sample.engine d = Ret e' ∧
    data e' = data e ∧
    vclock e !! "n1" = Some 1%N ∧
    vclock e' !! "n1" = None ∧
    vclock e' ≠ vclock e.
Proof.
  eexists _, _, _, _.
  split; [computed|].
  split; [reflexivity|].
  split; [computed|].
  split; [computed|].
  split; [computed|].
  split; [computed|].
  split; [computed|].
  intros Heq. apply (f_equal (λ v : gmap string N, v !! "n1")) in Heq.
  vm_compute in Heq. discriminate.
Qed.

(** ** The WAL round trip (C7) *)

Lemma pieces_line line :
  no_LF line = true →
  bufio.pieces (line +:+ String bufio.LF EmptyString) = [line; EmptyString].
Proof.
  induction line as [|c line IH]; simpl; intros H.
  - reflexivity.
  - apply andb_true_iff in H as [Hc Hline]. rewrite (IH Hline).
    apply negb_true_iff in Hc. by rewrite Hc.
Qed.

Lemma dropCR_id line : ends_with_CR line = false → bufio.dropCR line = line.
Proof.
  induction line as [|c line IH]; simpl; intros H; [done|].
  destruct line as [|c' line]; [by rewrite H|].
  by rewrite (IH H).
Qed.

Lemma Scan_line line :
  one_line line = true →
  (bufio.len line < bufio.MaxScanTokenSize)%N →
  bufio.Scan (line +:+ String bufio.LF EmptyString) = ([line], None).
Proof.
  unfold one_line. intros H Hlen. apply andb_true_iff in H as [Hlf Hcr].
  apply negb_true_iff in Hcr.
  unfold bufio.Scan. rewrite (pieces_line _ Hlf). simpl.
  unfold bufio.fits. apply N.ltb_lt in Hlen. rewrite Hlen.
  by rewrite (dropCR_id _ Hcr).
Qed.

Lemma Scan_long_line line :
  no_LF line = true →
  (bufio.MaxScanTokenSize ≤ bufio.len line)%N →
  bufio.Scan (line +:+ String bufio.LF EmptyString) = ([], Some ErrTooLong).
Proof.
  intros Hlf Hlen. unfold bufio.Scan. rewrite (pieces_line _ Hlf). simpl.
  unfold bufio.fits. apply N.ltb_ge in Hlen. by rewrite Hlen.
Qed.

Section wal_roundtrip.
Context `{codec : JSON}.

Lemma saveTransactionToWAL_empty tx e d line :
  wal_is_empty e d →
  walFile e ∉ nowrite d →
  full d = false →
  Marshal_Transaction tx = Some line →
  saveTransactionToWAL tx e d
  = (None, set_files (<[walFile e := line +:+ String bufio.LF EmptyString]> (files d)) d).
Proof.
  intros Hempty Hw Hfull Hline.
  unfold saveTransactionToWAL, os.Stat, os.MkdirAll_Create, os.OpenFile_append, os.Write.
  destruct Hempty as [Hnone|Hsome].
  - rewrite Hnone. rewrite decide_False by done. simpl.
    rewrite lookup_insert_eq. rewrite decide_False by done.
    rewrite Hline, Hfull. simpl. by rewrite insert_insert_eq.
  - rewrite Hsome. rewrite decide_False by done.
    rewrite Hline, Hfull. simpl. by rewrite Hsome.
Qed.

(** C7, amended.  For a transaction that is well formed — it marshals to a
    line which unmarshals to the same transaction, action, origin, LSN and
    payload — and whose line is shorter than the scanner's buffer limit of
    64 KiB, appending it to an empty WAL succeeds (on a disk that takes the
    write) and loading the WAL then returns exactly that transaction. *)
Theorem wal_append_then_load tx e d line :
  wal_is_empty e d →
  walFile e ∉ nowrite d → walFile e ∉ noread d → full d = false →
  Marshal_Transaction tx = Some line →
  Unmarshal_Transaction line = Some tx →
  one_line line = true →
  (bufio.len line < bufio.MaxScanTokenSize)%N →
  ∃ d',
    saveTransactionToWAL tx e d = (None, d') ∧
    files d' !! walFile e = Some (line +:+ String bufio.LF EmptyString) ∧
    loadWAL e d' = ([tx], None).
Proof.
  intros Hempty Hw Hr Hfull Hline Hback Hone Hlen.
  eexists. split; [by apply saveTransactionToWAL_empty|].
  split; [simpl; by rewrite lookup_insert_eq|].
  unfold loadWAL, os.ReadFile. simpl. rewrite lookup_insert_eq.
  rewrite decide_False by done.
  rewrite (Scan_line _ Hone Hlen). simpl. by rewrite Hback.
Qed.

(** Past the limit nothing is loaded, whatever the line holds. *)
Lemma wal_long_line_is_not_loaded tx e d line :
  wal_is_empty e d →
  walFile e ∉ nowrite d → walFile e ∉ noread d → full d = false →
  Marshal_Transaction tx = Some line →
  no_LF line = true →
  (bufio.MaxScanTokenSize ≤ bufio.len line)%N →
  loadWAL e (snd (saveTransactionToWAL tx e d)) = ([], Some ErrTooLong).
Proof.
  intros Hempty Hw Hr Hfull Hline Hlf Hlen.
  rewrite (saveTransactionToWAL_empty _ _ _ _ Hempty Hw Hfull Hline).
  unfold loadWAL, os.ReadFile. simpl. rewrite lookup_insert_eq.
  rewrite decide_False by done.
  by rewrite (Scan_long_line _ Hlf Hlen).
Qed.

End wal_roundtrip.

(** The run of C7's theorem: the first sample upsert on the empty disk. *)
Lemma wal_append_then_load_witness :
  ∃ d',
    saveTransactionToWAL (codec := refjson.codec) sample.tx1 sample.engine sample.disk
    = (None, d') ∧
    files d' !! "wal.txt"
    = Some (default "" (refjson.enc_Transaction sample.tx1) +:+ String bufio.LF EmptyString) ∧
    loadWAL (codec := refjson.codec) sample.engine d' = ([sample.tx1], None).
Proof.
  apply (wal_append_then_load (codec := refjson.codec) sample.tx1 sample.engine sample.disk
           (default "" (refjson.enc_Transaction sample.tx1))).
  - left. reflexivity.
  - vm_compute. discriminate.
  - vm_compute. discriminate.
  - reflexivity.
  - computed.
  - computed.
  - computed.
  - computed.
Defined.

(** C7 as stated fails: the transaction marshals to one line that unmarshals
    to the same transaction, the append to the empty WAL succeeds, and the
    load returns no transaction and the scanner's error, the line being longer
    than 64 KiB. *)
Lemma long_line_is_not_loaded :
  Marshal_Transaction (JSON := refjson.codec) long_line.tx = Some long_line.line ∧
  Unmarshal_Transaction (JSON := refjson.codec) long_line.line = Some long_line.tx ∧
  one_line long_line.line = true ∧
  wal_is_empty sample.engine sample.disk ∧
  fst (saveTransactionToWAL (codec := refjson.codec) long_line.tx sample.engine sample.disk)
  = None ∧
  loadWAL (codec := refjson.codec) sample.engine
    (snd (saveTransactionToWAL (codec := refjson.codec) long_line.tx sample.engine sample.disk))
  = ([], Some ErrTooLong) ∧
  loadWAL (codec := refjson.codec) sample.engine
    (snd (saveTransactionToWAL (codec := refjson.codec) long_line.tx sample.engine sample.disk))
  ≠ ([long_line.tx], None).
Proof.
  assert (loadWAL (codec := refjson.codec) sample.engine
            (snd (saveTransactionToWAL (codec := refjson.codec)
                    long_line.tx sample.engine sample.disk))
          = ([], Some ErrTooLong)) as Hload by computed.
  split; [apply (bool_decide_eq_true_1 _); computed|].
  split; [apply (bool_decide_eq_true_1 _); computed|].
  split; [computed|].
  split; [by left|].
  split; [computed|].
  split; [exact Hload|].
  rewrite Hload. discriminate.
Qed.

(** ** The R-tree and the data map (C2) *)

(** C2 fails on the code.  After the second upsert of id a the map holds one
    feature for a, at (9,9), and the R-tree two entries keyed a: the new
    rectangle and the rectangle of the replaced feature, which a search
    around (1,1) still reports.  After the delete of a with the stored payload
    the map is empty and the entry of the replaced feature is still in the
    R-tree; a search that meets it dereferences the missing map entry. *)
Lemma upsert_of_present_id_leaves_stale_entry :
  (∃ e d,
     stale_entries.replaced = Ret (None, e, d) ∧
     data e = {[ "a" := mkFeature "n1" 2 (sample.feature "a" 9 9) ]} ∧
     multiplicity stale_entries.old_entry (rTree e) = 1 ∧
     multiplicity stale_entries.new_entry (rTree e) = 1 ∧
     rtree.entries_of "a" (rTree e) = 2 ∧
     getData (0, 0, 2, 2)%Z e = Ret {[ "a" := sample.feature "a" 9 9 ]}) ∧
  (∃ e d,
     stale_entries.deleted = Ret (None, e, d) ∧
     data e = ∅ ∧
     rTree e = {[+ stale_entries.old_entry +]} ∧
     rtree.entries_of "a" (rTree e) = 1 ∧
     getData (0, 0, 2, 2)%Z e = Panic NilDereference).
Proof.
  split.
  - eexists _, _. split; [computed|].
    repeat split; computed.
  - eexists _, _. split; [computed|].
    repeat split; computed.
Qed.

(** * Further properties of the engine, the registry and the handlers *)
(** * Further properties of the engine *)

(** ** The vector clock along a run *)

Lemma applyTransaction_clock tx e applied err e' :
  applyTransaction tx e = Ret (applied, err, e') →
  (tx_Lsn tx ≤ vclock_at e' (tx_Name tx))%N ∧
  ∀ origin, (vclock_at e origin ≤ vclock_at e' origin)%N.
Proof.
  intros Happ.
  destruct (applyTransaction_Ret _ _ _ _ _ Happ) as (_ & _ & _ & Hcase).
  destruct Hcase as [(_ & -> & Hle)|(_ & Hlt & Hv)].
  - split; [done|]. intros; lia.
  - unfold vclock_at. rewrite Hv. split.
    + rewrite lookup_insert_eq. simpl. lia.
    + intros origin. destruct (decide (tx_Name tx = origin)) as [<-|Hne].
      * rewrite lookup_insert_eq. simpl. unfold vclock_at in Hlt. lia.
      * rewrite lookup_insert_ne by done. lia.
Qed.

Section clock_runs.
Context `{codec : JSON}.


Lemma Execute_clock cmd e d r e' d' :
  Execute cmd e d = Ret (r, e', d') →
  ∀ origin, (vclock_at e origin ≤ vclock_at e' origin)%N.
Proof.
  intros H origin. destruct cmd; simpl in H.
  - apply bind_Ret_inv in H as (m & _ & H). injection H as _ <- _. lia.
  - apply bind_Ret_inv in H as (m & _ & H). injection H as _ <- _. lia.
  - apply bind_Ret_inv in H as (m & _ & H). injection H as _ <- _. lia.
  - apply bind_Ret_inv in H as ([[err e1] d1] & Happly & H).
    injection H as _ <- _.
    apply applyTransactionAndSave_Ret in Happly
      as [(_ & _ & -> & _)|(e0 & Happ & Hsave)]; [lia|].
    apply applyTransaction_clock in Happ as [_ Hmono].
    destruct Hsave as [(werr & _ & _ & ->)|(_ & _ & ->)]; apply Hmono.
  - destruct (makeSnapshot e d). injection H as _ <- _. lia.
Qed.

(** X1.  Whatever commands the loop serves, no entry of the vector clock
    ever decreases, and an entry that was missing stays at least zero: the
    clock of every origin only moves forward. *)
Theorem clock_never_goes_back cmds e d rs e' d' :
  serve cmds e d = Ret (rs, e', d') →
  ∀ origin, (vclock_at e origin ≤ vclock_at e' origin)%N.
Proof.
  revert e d rs e' d'.
  induction cmds as [|cmd cmds IH]; intros e d rs e' d' H origin; simpl in H.
  - injection H as _ <- _. lia.
  - apply bind_Ret_inv in H as ([[r e1] d1] & Hcmd & H).
    apply bind_Ret_inv in H as ([[rs1 e2] d2] & Hrest & H).
    injection H as _ <- _.
    pose proof (Execute_clock _ _ _ _ _ _ Hcmd origin).
    pose proof (IH _ _ _ _ _ Hrest origin). lia.
Qed.


(** X3.  At the last [uint64] the LSN of a local write wraps around to zero:
    the write is taken for one already applied, and [ApplyTransaction]
    returns no error without touching the engine or the disk, whatever the
    action and the payload. *)
Theorem local_write_at_last_lsn_is_dropped action feature e d :
  vclock_at e (name e) = uint64_max →
  ApplyTransaction action feature e d = Ret (None, e, d).
Proof.
  intros Hmax. unfold ApplyTransaction, ApplyTransactionRaw, applyTransactionAndSave.
  rewrite applyTransaction_dominated; [done|].
  simpl. rewrite Hmax. vm_compute. discriminate.
Qed.

End clock_runs.

(** ** Replaying a WAL twice *)


Lemma applyWAL_clock wal e e' :
  applyWAL wal e = Ret e' →
  (∀ origin, (vclock_at e origin ≤ vclock_at e' origin)%N) ∧
  Forall (λ tx, (tx_Lsn tx ≤ vclock_at e' (tx_Name tx))%N) wal.
Proof.
  unfold applyWAL. revert e.
  induction wal as [|tx wal IH]; intros e H; simpl in H.
  - injection H as <-. split; [intros; lia | constructor].
  - apply bind_Ret_inv in H as (e1 & H1 & H).
    apply bind_Ret_inv in H1 as ([[applied err] e2] & Happ & H1).
    injection H1 as <-.
    apply applyTransaction_clock in Happ as [Hown Hmono].
    destruct (IH _ H) as [Hmono' Hall]. split.
    + intros origin. specialize (Hmono origin). specialize (Hmono' origin). lia.
    + constructor; [|done]. specialize (Hmono' (tx_Name tx)). lia.
Qed.

(** X4.  Replaying a WAL over the state its replay has produced changes
    nothing: every transaction of the log is dominated by then. *)
Theorem replay_twice_is_replay_once wal e e' :
  applyWAL wal e = Ret e' →
  applyWAL wal e' = Ret e'.
Proof.
  intros H. apply applyWAL_clock in H as [_ Hall].
  unfold applyWAL. induction Hall as [|tx wal Htx _ IH]; simpl; [done|].
  by rewrite (applyTransaction_dominated _ _ Htx).
Qed.

(** ** Invariants of the data map along a run *)

Section run_invariants.
Context `{codec : JSON}.

(** A property of the data map and the vector clock that every applied
    transaction keeps is kept by all of [Start]. *)
Lemma Start_keeps (P : Engine → Prop) rt cmds e d rs e' d' :
  (∀ e1 e2, data e2 = data e1 → vclock e2 = vclock e1 → P e1 → P e2) →
  (∀ tx e1 applied err e2,
     P e1 → applyTransaction tx e1 = Ret (applied, err, e2) → P e2) →
  P (snd (loadSnapshot e d)) →
  Start rt cmds e d = Ret (rs, e', d') →
  P e'.
Proof.
  intros Hext Hstep Hinit H. unfold Start in H.
  apply bind_Ret_inv in H as (e5 & Hrec & Hserve).
  assert (P e5) as H5.
  { unfold recover in Hrec.
    destruct (loadSnapshot e d) as [serr e1]. simpl in Hinit.
    apply bind_Ret_inv in Hrec as (e2 & Hrestore & Hrec).
    destruct (loadWAL e2 d) as [wal werr].
    apply bind_Ret_inv in Hrec as (e3 & Hreplay & Hrec).
    injection Hrec as <-.
    apply restoreRTree_Ret in Hrestore as (_ & _ & Hd2 & Hv2).
    pose proof (Hext _ _ Hd2 Hv2 Hinit) as H2.
    assert (P e3) as H3.
    { revert Hreplay. unfold applyWAL. apply foldM_inv; [|done].
      intros tx ea eb Ha Hb.
      apply bind_Ret_inv in Hb as ([[applied err] ec] & Happ & Hb).
      injection Hb as <-. eauto. }
    destruct (connectToReplicas_frame rt e3) as (_ & Hd4 & _ & Hv4 & _).
    pose proof (Hext _ _ Hd4 Hv4 H3) as H4.
    unfold broadcastAllData.
    destruct (broadcast_each_frame (allDataTransactions rt (connectToReplicas rt e3))
                (connectToReplicas rt e3)) as (_ & Hd5 & _ & Hv5 & _).
    exact (Hext _ _ Hd5 Hv5 H4). }
  clear Hrec Hinit. revert e5 d rs e' d' H5 Hserve.
  induction cmds as [|cmd cmds IH]; intros e5 d1 rs e' d' H5 H; simpl in H.
  - by injection H as _ <- _.
  - apply bind_Ret_inv in H as ([[r e1] d2] & Hcmd & H).
    apply bind_Ret_inv in H as ([[rs1 e2] d3] & Hrest & H).
    injection H as _ <- _.
    eapply IH; [|exact Hrest].
    destruct cmd; simpl in Hcmd.
    + apply bind_Ret_inv in Hcmd as (m & _ & Hcmd). by injection Hcmd as _ <- _.
    + apply bind_Ret_inv in Hcmd as (m & _ & Hcmd). by injection Hcmd as _ <- _.
    + apply bind_Ret_inv in Hcmd as (m & _ & Hcmd). by injection Hcmd as _ <- _.
    + apply bind_Ret_inv in Hcmd as ([[err ea] da] & Happly & Hcmd).
      injection Hcmd as _ <- _.
      apply applyTransactionAndSave_Ret in Happly
        as [(_ & _ & -> & _)|(e0 & Happ & Hsave)]; [done|].
      pose proof (Hstep _ _ _ _ _ H5 Happ) as H0.
      destruct Hsave as [(werr & _ & _ & ->)|(_ & _ & ->)]; [done|].
      by apply (Hext e0).
    + destruct (makeSnapshot e5 d1). by injection Hcmd as _ <- _.
Qed.

Lemma applyTransaction_lsns_distinct tx e applied err e' :
  vclock_dominates e → lsns_distinct e →
  applyTransaction tx e = Ret (applied, err, e') →
  lsns_distinct e'.
Proof.
  intros Hdom Hinv Happ.
  destruct (applyTransaction_Ret _ _ _ _ _ Happ) as (_ & _ & _ & Hcase).
  destruct Hcase as [(_ & -> & _)|(-> & Hlt & _)]; [done|].
  apply applyTransaction_applied in Happ as (g & id & _ & _ & Hcase).
  assert (∀ j F, data e !! j = Some F → f_Name F = tx_Name tx →
                 f_LSN F ≠ tx_Lsn tx) as Hfresh.
  { intros j F HF Hname Hlsn. specialize (Hdom j F HF). simpl in Hdom.
    rewrite Hname, Hlsn in Hdom. lia. }
  unfold lsns_distinct.
  destruct Hcase as [(_ & b & _ & -> & _)|[(_ & b & _ & -> & _)|(_ & _ & -> & _)]].
  - intros id1 id2 F1 F2 H1 H2 Hname Hlsn.
    destruct (decide (id1 = id)) as [->|Hne1];
      destruct (decide (id2 = id)) as [->|Hne2]; [done| | |].
    + rewrite lookup_insert_eq in H1. injection H1 as <-.
      rewrite lookup_insert_ne in H2 by done. simpl in *.
      destruct (Hfresh id2 F2 H2); congruence.
    + rewrite lookup_insert_eq in H2. injection H2 as <-.
      rewrite lookup_insert_ne in H1 by done. simpl in *.
      destruct (Hfresh id1 F1 H1); congruence.
    + rewrite lookup_insert_ne in H1, H2 by done. eauto.
  - intros id1 id2 F1 F2 H1 H2.
    apply lookup_delete_Some in H1 as [_ H1].
    apply lookup_delete_Some in H2 as [_ H2]. eauto.
  - done.
Qed.

(** X5.  In every state a fresh engine reaches through [Start] when the
    snapshot load brings no feature into the map, and through any commands
    served afterwards, two different stored features of the same origin
    carry different LSNs: the pair of origin and LSN names one feature. *)
Theorem stored_lsns_are_distinct rt cmds self peers snapshot wal d rs e' d' :
  data (snd (loadSnapshot (NewEngine self peers snapshot wal) d)) = ∅ →
  Start rt cmds (NewEngine self peers snapshot wal) d = Ret (rs, e', d') →
  ∀ id1 id2 F1 F2,
    data e' !! id1 = Some F1 → data e' !! id2 = Some F2 →
    f_Name F1 = f_Name F2 → f_LSN F1 = f_LSN F2 → id1 = id2.
Proof.
  intros Hnone Hstart.
  enough (vclock_dominates e' ∧ lsns_distinct e') as [_ H] by exact H.
  apply (Start_keeps (λ e, vclock_dominates e ∧ lsns_distinct e)
           rt cmds (NewEngine self peers snapshot wal) d rs e' d'); [| | |exact Hstart].
  - intros e1 e2 Hd Hv [H1 H2]. split.
    + by apply (vclock_dominates_ext e1).
    + unfold lsns_distinct. by rewrite Hd.
  - intros tx e1 applied err e2 [H1 H2] Happ. split.
    + by eapply applyTransaction_dominates.
    + by eapply applyTransaction_lsns_distinct.
  - split.
    + unfold vclock_dominates. rewrite Hnone. apply map_Forall_empty.
    + unfold lsns_distinct. rewrite Hnone. intros ???? H. by rewrite lookup_empty in H.
Qed.

End run_invariants.

(** ** A delete of an id that is not stored *)



(** ** The read commands *)

Lemma foldl_insert_union {A B : Type} (f : A → B) (l : list (string * A)) (acc : gmap string B) :
  foldl (λ acc kv, <[fst kv := f (snd kv)]> acc) acc l
  = list_to_map (reverse (prod_map id f <$> l)) ∪ acc.
Proof.
  revert acc. induction l as [|[k v] l IH]; intros acc; simpl.
  - by rewrite (left_id_L ∅ (∪)).
  - rewrite IH, reverse_cons, list_to_map_app. simpl.
    rewrite <- (assoc_L (∪)). f_equal.
    by rewrite insert_union_singleton_l.
Qed.

Lemma getAllData_indexed e :
  indexed e → getAllData e = Ret (f_Feature <$> data e).
Proof.
  intros Hinv. unfold getAllData.
  assert (∀ l acc,
    Forall (λ kF, data e !! fst kF = Some (snd kF)) l →
    foldM (λ (kf : string * Feature) (result : gmap string (option GeoFeature)),
             feature ← deref (f_Feature (snd kf));
             id ← assert_string (ID feature);
             mret (<[id := f_Feature (snd kf)]> result)) l acc
    = Ret (foldl (λ acc kv, <[fst kv := f_Feature (snd kv)]> acc) acc l)) as Hfold.
  { induction l as [|[k F] l IH]; intros acc Hall; simpl; [done|].
    apply Forall_cons in Hall as [HkF Hall]. simpl in HkF.
    destruct (Hinv k F HkF) as (g & b & Hg & Hid & _).
    rewrite Hg. simpl. rewrite Hid. simpl. rewrite <- Hg.
    by apply IH. }
  rewrite Hfold.
  - f_equal. rewrite foldl_insert_union, (right_id_L ∅ (∪)).
    rewrite (list_to_map_proper _ (prod_map id f_Feature <$> map_to_list (data e))).
    + by rewrite list_to_map_fmap, list_to_map_to_list.
    + rewrite fmap_reverse, reverse_Permutation, <- list_fmap_compose.
      rewrite (list_fmap_ext _ fst (map_to_list (data e))) by (by intros ? []).
      apply NoDup_fst_map_to_list.
    + apply reverse_Permutation.
  - apply Forall_forall. intros [k F] Hin. by apply elem_of_map_to_list.
Qed.

Section reads.
Context `{codec : JSON}.

(** X7.  When every stored feature is filed under its own id (which [Start]
    without a snapshot and the commands keep true), the read commands cannot
    fail: GetAll answers exactly the stored payloads under their ids, and
    Exists answers whether the id is a key of the map; neither changes the
    engine or the disk. *)
Theorem reads_answer_from_the_map e d :
  indexed e →
  Execute GetAllCommand e d = Ret (Features (f_Feature <$> data e), e, d) ∧
  ∀ id,
    Exists id e = Ret (bool_decide (is_Some (data e !! id))) ∧
    Execute (ExistsCommand id) e d
    = Ret (Found (bool_decide (is_Some (data e !! id))), e, d).
Proof.
  intros Hinv. pose proof (getAllData_indexed e Hinv) as Hall.
  split; [simpl; by rewrite Hall|].
  intros id.
  assert (bool_decide (is_Some ((f_Feature <$> data e) !! id))
          = bool_decide (is_Some (data e !! id))) as Hdec.
  { apply bool_decide_ext. rewrite lookup_fmap. apply fmap_is_Some. }
  split.
  - unfold Exists. rewrite Hall. simpl. by rewrite Hdec.
  - simpl. rewrite Hall. simpl. by rewrite Hdec.
Qed.

End reads.

Lemma Search_elem_of minP maxP tr id :
  id ∈ rtree.Search minP maxP tr ↔
  ∃ b, (b, id) ∈ tr ∧ rtree.intersects b (minP, maxP) = true.
Proof.
  unfold rtree.Search. rewrite list_elem_of_fmap. split.
  - intros ([b id'] & -> & Hin). apply list_elem_of_filter in Hin as [Hi Hin].
    exists b. split; [by apply gmultiset_elem_of_elements in Hin | done].
  - intros (b & Hin & Hi). exists (b, id). split; [done|].
    apply list_elem_of_filter. split; [done|]. by apply gmultiset_elem_of_elements.
Qed.

Lemma getData_fold e ids acc m :
  foldM (λ id (result : gmap string (option GeoFeature)),
           feature ← deref (data e !! id);
           mret (<[id := f_Feature feature]> result)) ids acc = Ret m →
  ∀ id,
    (id ∈ ids → ∃ F, data e !! id = Some F ∧ m !! id = Some (f_Feature F)) ∧
    (id ∉ ids → m !! id = acc !! id).
Proof.
  revert acc. induction ids as [|a ids IH]; intros acc H id; simpl in H.
  - injection H as <-. split; [by intros ?%elem_of_nil | done].
  - apply bind_Ret_inv in H as (acc' & Ha & H).
    apply bind_Ret_inv in Ha as (F & HF & Ha). apply deref_Ret_inv in HF.
    injection Ha as <-.
    destruct (IH _ H id) as [Hin Hout].
    destruct (decide (id ∈ ids)) as [Hids|Hids].
    + split; [intros _; by apply Hin|]. intros Hn. destruct Hn. by right.
    + split.
      * intros [->|?]%elem_of_cons; [|done].
        exists F. split; [done|]. rewrite (Hout Hids). by rewrite lookup_insert_eq.
      * intros Hn. apply not_elem_of_cons in Hn as [Hne _].
        rewrite (Hout Hids). by rewrite lookup_insert_ne.
Qed.

(** X8.  A rectangle query that returns reports map entries only, each with
    the payload the map holds for that id, and, when every stored feature has
    its R-tree entry, it misses no stored feature whose bounding rectangle
    meets the query rectangle (bounds included). *)
Theorem rect_query_reports_stored_features minX minY maxX maxY e m :
  getData (minX, minY, maxX, maxY) e = Ret m →
  (∀ id payload,
     m !! id = Some payload →
     ∃ F, data e !! id = Some F ∧ payload = f_Feature F) ∧
  (indexed e →
   ∀ id F g b,
     data e !! id = Some F → f_Feature F = Some g → Geometry g = Some b →
     rtree.intersects b ((minX, minY), (maxX, maxY)) = true →
     m !! id = Some (Some g)).
Proof.
  unfold getData. intros H.
  pose proof (getData_fold _ _ _ _ H) as Hfold. split.
  - intros id payload Hm. destruct (Hfold id) as [Hin Hout].
    destruct (decide (id ∈ rtree.Search (minX, minY) (maxX, maxY) (rTree e)))
      as [Hs|Hs].
    + destruct (Hin Hs) as (F & HF & HmF). exists F. split; [done|]. congruence.
    + rewrite (Hout Hs), lookup_empty in Hm. discriminate.
  - intros Hinv id F g b HF Hg Hb Hmeet.
    destruct (Hinv id F HF) as (g' & b' & Hg' & _ & Hb' & Hentry).
    assert (g' = g) as -> by congruence. assert (b' = b) as -> by congruence.
    destruct (Hfold id) as [Hin _].
    destruct Hin as (F' & HF' & ->).
    { apply Search_elem_of. eauto. }
    assert (F' = F) as -> by congruence. by rewrite Hg.
Qed.

(** ** The WAL file *)

Lemma string_app_cons c s1 s2 : String c s1 +:+ s2 = String c (s1 +:+ s2).
Proof. reflexivity. Qed.




Lemma pieces_nonempty s : bufio.pieces s ≠ [].
Proof.
  induction s as [|c s IH]; simpl; [done|].
  destruct (bufio.pieces s); [done|]. by case_match.
Qed.

Lemma pieces_cons_line line rest :
  no_LF line = true →
  bufio.pieces (line +:+ String bufio.LF rest) = line :: bufio.pieces rest.
Proof.
  induction line as [|c line IH]; intros H.
  - change (bufio.pieces (String bufio.LF rest) = "" :: bufio.pieces rest).
    simpl. destruct (bufio.pieces rest) eqn:Hp; [by destruct (pieces_nonempty rest)|done].
  - simpl in H. apply andb_true_iff in H as [Hc Hline].
    apply negb_true_iff in Hc.
    rewrite string_app_cons. simpl. rewrite (IH Hline). by rewrite Hc.
Qed.

Lemma pieces_wal_text lines :
  Forall scannable lines →
  bufio.pieces (wal_text lines) = (lines ++ [""])%list.
Proof.
  induction 1 as [|line lines [Hone _] _ IH]; simpl; [done|].
  unfold one_line in Hone. apply andb_true_iff in Hone as [Hlf _].
  by rewrite (pieces_cons_line _ _ Hlf), IH.
Qed.

Lemma tokens_lines lines :
  Forall scannable lines →
  bufio.tokens (lines ++ [""])%list = (lines, None).
Proof.
  induction 1 as [|line lines [Hone Hlen] _ IH]; [done|].
  change ((line :: lines) ++ [""])%list with (line :: (lines ++ [""])%list).
  destruct (lines ++ [""])%list as [|p ps] eqn:Hrest; [by destruct lines|].
  change (bufio.tokens (line :: p :: ps))
    with (if bufio.fits line
          then let '(ts, err) := bufio.tokens (p :: ps) in (bufio.dropCR line :: ts, err)
          else ([], Some ErrTooLong)).
  unfold bufio.fits. apply N.ltb_lt in Hlen. rewrite Hlen, IH.
  unfold one_line in Hone. apply andb_true_iff in Hone as [_ Hcr].
  apply negb_true_iff in Hcr. by rewrite (dropCR_id _ Hcr).
Qed.

Lemma Scan_wal_text lines :
  Forall scannable lines → bufio.Scan (wal_text lines) = (lines, None).
Proof.
  intros Hall. unfold bufio.Scan.
  by rewrite (pieces_wal_text _ Hall), (tokens_lines _ Hall).
Qed.

Section wal_file.
Context `{codec : JSON}.

Lemma loadWAL_wal_text e d lines :
  files d !! walFile e = Some (wal_text lines) →
  walFile e ∉ noread d →
  Forall scannable lines →
  loadWAL e d = (omap Unmarshal_Transaction lines, None).
Proof.
  intros Hfile Hread Hall. unfold loadWAL, os.ReadFile.
  rewrite Hfile. rewrite decide_False by done.
  by rewrite (Scan_wal_text _ Hall).
Qed.

(** X9.  Loading a WAL whose lines the scanner delivers gives, in file
    order, the transactions of the lines that unmarshal; lines that do not
    are skipped, and none of them makes the load fail. *)
Theorem wal_load_keeps_order_and_skips_bad_lines e d lines :
  files d !! walFile e = Some (wal_text lines) →
  walFile e ∉ noread d →
  Forall scannable lines →
  loadWAL e d = (omap Unmarshal_Transaction lines, None).
Proof. apply loadWAL_wal_text. Qed.




End wal_file.

(** ** Recovery from the WAL *)



Section recovery.
Context `{codec : JSON}.


Lemma wal_records_walFile e1 e2 d txs :
  walFile e1 = walFile e2 → wal_records e1 d txs → wal_records e2 d txs.
Proof. unfold wal_records. by intros ->. Qed.








Lemma saveSnapshot_frame e d :
  ∀ path, path ≠ snapshotFile e →
          files (snd (saveSnapshot e d)) !! path = files d !! path.
Proof.
  intros path Hne.
  unfold saveSnapshot, os.Stat, os.MkdirAll_Create, os.WriteFile.
  repeat case_match; simpl in *; by rewrite ?lookup_insert_ne.
Qed.

(** X13.  A snapshot that reports an error has not touched the WAL: the log
    is emptied only after the snapshot file has been written.  (The two paths
    being different.) *)
Theorem failed_snapshot_keeps_the_wal e d err d' :
  makeSnapshot e d = (Some err, d') →
  snapshotFile e ≠ walFile e →
  files d' !! walFile e = files d !! walFile e.
Proof.
  unfold makeSnapshot. intros H Hne.
  pose proof (saveSnapshot_frame e d (walFile e) (not_eq_sym Hne)) as Hframe.
  destruct (saveSnapshot e d) as [[serr|] d0]; simpl in Hframe.
  - by injection H as _ <-.
  - assert (d' = d0) as ->; [|exact Hframe].
    unfold clearWAL, os.OpenFile_trunc in H. clear Hframe.
    destruct (files d0 !! walFile e); [|congruence].
    destruct (decide _); [congruence|discriminate].
Qed.

End recovery.

(** ** The registry and what the peers receive *)

Lemma run_removals_all nm conns pending :
  run_removals (length pending) (mkReplicaRegistry nm conns pending)
  = mkReplicaRegistry nm (foldl (λ m replica, delete replica m) conns pending) [].
Proof.
  revert conns. induction pending as [|replica pending IH]; intros conns; [done|].
  simpl. unfold run_removal. simpl. apply IH.
Qed.

Lemma lookup_foldl_delete (conns : gmap string Conn) pending replica :
  foldl (λ m replica, delete replica m) conns pending !! replica
  = if bool_decide (replica ∈ pending) then None else conns !! replica.
Proof.
  revert conns. induction pending as [|k pending IH]; intros conns; simpl; [done|].
  rewrite IH. destruct (decide (replica = k)) as [->|Hne].
  - rewrite lookup_delete_eq. rewrite (bool_decide_eq_true_2 (k ∈ k :: pending)) by left.
    by case_bool_decide.
  - rewrite lookup_delete_ne by done.
    destruct (decide (replica ∈ pending)) as [Hin|Hout].
    + rewrite !bool_decide_eq_true_2; [done|by right|done].
    + rewrite !bool_decide_eq_false_2; [done| |done].
      intros [?|?]%elem_of_cons; done.
Qed.

Lemma elem_of_failing conns replica :
  replica ∈ failing conns ↔ ∃ conn, conns !! replica = Some conn ∧ broken conn = true.
Proof.
  unfold failing. rewrite list_elem_of_fmap. split.
  - intros ([k conn] & -> & Hin). apply list_elem_of_filter in Hin as [Hbroken Hin].
    apply elem_of_map_to_list in Hin. by exists conn.
  - intros (conn & Hlook & Hbroken). exists (replica, conn). split; [done|].
    apply list_elem_of_filter. split; [done|]. by apply elem_of_map_to_list.
Qed.

(** X14.  A peer whose write fails is dropped: once the removals that a
    [Broadcast] of an own transaction has started have run, the registry
    holds exactly the peers that were registered, sound and not already
    being removed, each with the transaction appended to what it was sent;
    nothing is left pending. *)
Theorem failed_write_drops_the_peer tx r :
  tx_Name tx = r_name r →
  r_removing (drain (Broadcast tx r)) = [] ∧
  ∀ replica,
    r_connections (drain (Broadcast tx r)) !! replica
    = match r_connections r !! replica with
      | Some conn =>
          if broken conn || bool_decide (replica ∈ r_removing r) then None
          else Some (mkConn (writes conn ++ [tx]) false)
      | None => None
      end.
Proof.
  intros Hown. unfold drain, Broadcast. rewrite decide_False by tauto. simpl.
  rewrite run_removals_all. split; [done|]. intros replica. simpl.
  rewrite lookup_foldl_delete, lookup_fmap.
  destruct (r_connections r !! replica) as [conn|] eqn:Hlook; simpl;
    [|by case_bool_decide].
  destruct (broken conn) eqn:Hbroken; simpl.
  - rewrite bool_decide_eq_true_2; [done|].
    apply elem_of_app. right. apply elem_of_failing. by exists conn.
  - destruct (decide (replica ∈ r_removing r)) as [Hin|Hout].
    + rewrite !bool_decide_eq_true_2; [done|done|]. apply elem_of_app. by left.
    + rewrite !bool_decide_eq_false_2; [by rewrite ?Hbroken|done|].
      intros [?|Hfail]%elem_of_app; [done|].
      apply elem_of_failing in Hfail as (conn' & Hlook' & Hbroken'). congruence.
Qed.

Lemma written_nil_fmap (conns : gmap string Conn) : written [] <$> conns = conns.
Proof.
  rewrite <- (map_fmap_id conns) at 2.
  apply map_fmap_ext. intros ? conn _. apply written_nil.
Qed.

Lemma written_app_fmap l1 l2 (conns : gmap string Conn) :
  written l2 <$> (written l1 <$> conns) = written (l1 ++ l2) <$> conns.
Proof.
  rewrite <- map_fmap_compose. apply map_fmap_ext. intros ? conn _. apply written_app.
Qed.

Lemma StronglySorted_append {A} (R : relation A) l1 l2 :
  StronglySorted R l1 → StronglySorted R l2 →
  (∀ a b, a ∈ l1 → b ∈ l2 → R a b) →
  StronglySorted R (l1 ++ l2).
Proof.
  intros H1 H2. induction H1 as [|a l1 Hs IH Hall]; intros Hcross; simpl; [done|].
  constructor.
  - apply IH. intros x y Hx Hy. apply Hcross; [by right|done].
  - apply Forall_app. split; [done|].
    apply Forall_forall. intros y Hy. apply Hcross; [by left|done].
Qed.

Section sinks.
Context `{codec : JSON}.

Lemma Execute_sinks cmd e d r e' d' :
  r_name (connections e) = name e →
  Execute cmd e d = Ret (r, e', d') →
  r_name (connections e') = name e' ∧ name e' = name e ∧
  ∃ sent,
    r_connections (connections e') = written sent <$> r_connections (connections e) ∧
    Forall (λ tx, tx_Name tx = name e ∧
                  (vclock_at e (name e) < tx_Lsn tx ≤ vclock_at e' (name e))%N) sent ∧
    StronglySorted (λ a b, (tx_Lsn a < tx_Lsn b)%N) sent.
Proof.
  intros Hname H.
  assert (∀ e0 : Engine, e0 = e →
            r_name (connections e0) = name e0 ∧ name e0 = name e ∧
            ∃ sent,
              r_connections (connections e0) = written sent <$> r_connections (connections e) ∧
              Forall (λ tx, tx_Name tx = name e ∧
                  (vclock_at e (name e) < tx_Lsn tx ≤ vclock_at e0 (name e))%N) sent ∧
              StronglySorted (λ a b, (tx_Lsn a < tx_Lsn b)%N) sent) as Hsame.
  { intros e0 ->. split; [done|]. split; [done|]. exists [].
    rewrite written_nil_fmap. repeat split; constructor. }
  destruct cmd; simpl in H.
  - apply bind_Ret_inv in H as (m & _ & H). injection H as _ <- _. by apply Hsame.
  - apply bind_Ret_inv in H as (m & _ & H). injection H as _ <- _. by apply Hsame.
  - apply bind_Ret_inv in H as (m & _ & H). injection H as _ <- _. by apply Hsame.
  - apply bind_Ret_inv in H as ([[err e1] d1] & Happly & H).
    injection H as _ <- _.
    apply applyTransactionAndSave_Ret in Happly
      as [(_ & _ & -> & _)|(e0 & Happ & Hsave)]; [by apply Hsame|].
    destruct (applyTransaction_Ret _ _ _ _ _ Happ)
      as (_ & (Hn & _) & Hconn & [(? & _)|(_ & Hlt & Hclock)]); [done|].
    pose proof (applyTransaction_clock _ _ _ _ _ Happ) as [_ Hmono].
    destruct Hsave as [(werr & _ & _ & ->)|(_ & _ & ->)].
    + rewrite Hconn, Hn. split; [done|]. split; [done|]. exists [].
      rewrite written_nil_fmap. repeat split; constructor.
    + simpl. rewrite Broadcast_name, Broadcast_connections, Hconn, Hn, Hname.
      split; [done|]. split; [done|].
      exists (frames_of (name e) tx). split; [done|].
      unfold frames_of. case_decide as Hown; [|repeat split; constructor].
      split.
      * constructor; [|constructor]. split; [done|]. rewrite <- Hown.
        split; [done|]. unfold vclock_at. simpl.
        rewrite Hclock, lookup_insert_eq. simpl. lia.
      * repeat constructor.
  - destruct (makeSnapshot e d). injection H as _ <- _. by apply Hsame.
Qed.

(** X15.  What the loop sends to the peers.  Over any run of commands, every
    registered connection is handed the same frames, after what it had been
    sent before: transactions of the engine's own origin only, with strictly
    increasing LSNs, all above the own clock entry at the start and none
    above the own clock entry at the end.  (The registry carrying the
    engine's name, as [NewEngine] sets it up; the removals that failed
    writes have started are still pending, see [failing].) *)
Theorem peers_get_own_writes_in_lsn_order cmds e d rs e' d' :
  r_name (connections e) = name e →
  serve cmds e d = Ret (rs, e', d') →
  ∃ sent,
    r_connections (connections e') = written sent <$> r_connections (connections e) ∧
    Forall (λ tx, tx_Name tx = name e ∧
                  (vclock_at e (name e) < tx_Lsn tx ≤ vclock_at e' (name e))%N) sent ∧
    StronglySorted (λ a b, (tx_Lsn a < tx_Lsn b)%N) sent.
Proof.
  revert e d rs e' d'.
  induction cmds as [|cmd cmds IH]; intros e d rs e' d' Hname H; simpl in H.
  - injection H as _ <- _. exists []. rewrite written_nil_fmap.
    repeat split; constructor.
  - apply bind_Ret_inv in H as ([[r e1] d1] & Hcmd & H).
    apply bind_Ret_inv in H as ([[rs1 e2] d2] & Hrest & H).
    injection H as _ <- _.
    destruct (Execute_sinks _ _ _ _ _ _ Hname Hcmd)
      as (Hname1 & Hn1 & sent1 & Hconn1 & Hall1 & Hsorted1).
    destruct (IH _ _ _ _ _ Hname1 Hrest) as (sent2 & Hconn2 & Hall2 & Hsorted2).
    pose proof (Execute_clock _ _ _ _ _ _ Hcmd (name e)) as Hmono1.
    assert (∀ origin, (vclock_at e1 origin ≤ vclock_at e2 origin)%N) as Hmono2.
    { revert Hrest. clear. revert e1 d1 rs1 e2 d2.
      induction cmds as [|cmd cmds IH]; intros e d rs e' d' H origin; simpl in H.
      - injection H as _ <- _. lia.
      - apply bind_Ret_inv in H as ([[r e1] d1] & Hcmd & H).
        apply bind_Ret_inv in H as ([[rs1 e2] d2] & Hrest & H).
        injection H as _ <- _.
        pose proof (Execute_clock _ _ _ _ _ _ Hcmd origin).
        pose proof (IH _ _ _ _ _ Hrest origin). lia. }
    specialize (Hmono2 (name e)).
    exists (sent1 ++ sent2)%list. rewrite Hconn2, Hconn1, written_app_fmap.
    split; [done|]. split.
    + apply Forall_app. split.
      * eapply Forall_impl; [exact Hall1|]. simpl. intros tx (? & ? & ?).
        split; [done|]. lia.
      * eapply Forall_impl; [exact Hall2|]. simpl. rewrite Hn1.
        intros tx (? & ? & ?). split; [done|]. lia.
    + apply StronglySorted_append; [done|done|].
      intros a b Ha Hb.
      rewrite Forall_forall in Hall1, Hall2.
      destruct (Hall1 a Ha) as (_ & _ & ?).
      destruct (Hall2 b Hb) as (_ & Hb1 & _). rewrite Hn1 in Hb1. lia.
Qed.

End sinks.

(** ** The write handlers *)

Lemma Exists_indexed id e :
  indexed e → Exists id e = Ret (bool_decide (is_Some (data e !! id))).
Proof.
  intros Hinv. unfold Exists. rewrite (getAllData_indexed e Hinv). simpl.
  do 2 f_equal. apply bool_decide_ext. rewrite lookup_fmap. apply fmap_is_Some.
Qed.


Section write_handlers.
Context `{codec : JSON} `{geo : GeoJSON}.



(** X17.  A replace request (leader, body with a string id) for an id that is
    not stored is answered 404 and changes nothing; for an id that is stored
    it is served exactly as the insert request with the same body. *)
Theorem replace_request_needs_the_id bytes g id s d :
  leader s = true →
  UnmarshalFeature bytes = Some g → ID g = Str id →
  indexed (engine s) →
  replaceHandler (Some bytes) s d
  = if bool_decide (is_Some (data (engine s) !! id))
    then insertHandler (Some bytes) s d
    else Ret (Replied StatusNotFound, s, d).
Proof.
  intros Hleader Hparse Hid Hinv.
  unfold replaceHandler, insertHandler, upsertHandler.
  rewrite Hleader, Hparse, Hid. simpl.
  rewrite (Exists_indexed id (engine s) Hinv). simpl.
  by destruct (bool_decide (is_Some (data (engine s) !! id))).
Qed.


(** X19.  What a write request can change.  Whenever the upsert handler
    (insert or replace) or the delete handler returns with the node or the
    disk changed, the node is the leader and the reply is 200 or 500: a
    follower, a 400, a 404 and an aborted request leave both as they were.
    (A follower answers 200 all the same.) *)
Theorem refused_write_changes_nothing replace body s d served s' d' :
  upsertHandler replace body s d = Ret (served, s', d') ∨
  deleteHandler body s d = Ret (served, s', d') →
  (leader s = false → served = Replied StatusOK ∧ s' = s ∧ d' = d) ∧
  (served ≠ Replied StatusOK → served ≠ Replied StatusInternalServerError →
   s' = s ∧ d' = d).
Proof.
  intros [H|H].
  - unfold upsertHandler in H. destruct (leader s); simpl in H.
    2:{ injection H as <- <- <-. done. }
    split; [done|]. intros Hok Herr.
    destruct body as [bytes|]; [|by injection H as <- <- <-].
    destruct (UnmarshalFeature bytes) as [g|]; [|by injection H as <- <- <-].
    destruct (ID g) as [|id|]; try by injection H as <- <- <-.
    apply bind_Ret_inv in H as (missing & _ & H).
    destruct missing; [by injection H as <- <- <-|].
    apply bind_Ret_inv in H as ([[err e1] d1] & _ & H).
    destruct err; injection H as <- <- <-; simpl in *; done.
  - unfold deleteHandler in H. destruct (leader s); simpl in H.
    2:{ injection H as <- <- <-. done. }
    split; [done|]. intros Hok Herr.
    destruct body as [bytes|]; [|by injection H as <- <- <-].
    destruct (UnmarshalFeature bytes) as [g|]; [|by injection H as <- <- <-].
    destruct (ID g) as [|id|]; try by injection H as <- <- <-.
    apply bind_Ret_inv in H as (found & _ & H).
    destruct found; simpl in H; [|by injection H as <- <- <-].
    apply bind_Ret_inv in H as ([[err e1] d1] & _ & H).
    destruct err; injection H as <- <- <-; simpl in *; done.
Qed.

End write_handlers.

(** ** Start-up: the R-tree and the peers *)

Lemma restoreRTree_entries (l : list (string * Feature)) e e' :
  foldM (λ kf e, feature ← deref (f_Feature (snd kf)); updateRTree feature e) l e = Ret e' →
  size (rTree e') = (size (rTree e) + length l)%nat ∧
  rTree e ⊆ rTree e' ∧
  Forall (λ kf, ∃ g id b, f_Feature (snd kf) = Some g ∧ ID g = Str id ∧
                          Geometry g = Some b ∧ (b, id) ∈ rTree e') l.
Proof.
  revert e. induction l as [|kf l IH]; intros e H; simpl in H.
  - injection H as <-. split; [simpl; lia|]. split; [done|]. constructor.
  - apply bind_Ret_inv in H as (e1 & Hbody & H).
    apply bind_Ret_inv in Hbody as (g & Hg & Hup).
    apply deref_Ret_inv in Hg.
    apply updateRTree_Ret in Hup as (b & id & Hb & Hid & ->).
    destruct (IH _ H) as (Hsize & Hsub & Hall). simpl in Hsize, Hsub.
    unfold rtree.Insert, rtree.RTreeG in *.
    rewrite gmultiset_size_disj_union, gmultiset_size_singleton in Hsize.
    split; [simpl; lia|].
    split; [etrans; [apply gmultiset_disj_union_subseteq_l|exact Hsub]|].
    constructor; [|done].
    exists g, id, b. destruct b as [minP maxP]. simpl in *.
    repeat split; try done.
    apply (gmultiset_elem_of_subseteq _ _ _ (proj2 (gmultiset_elem_of_disj_union _ _ _)
             (or_intror (proj2 (gmultiset_elem_of_singleton _ _) eq_refl))) Hsub).
Qed.

(** X20.  The rebuild of the R-tree at start-up.  When every stored feature
    has a payload with a string id and a geometry, [restoreRTree] returns; it
    keeps the entries the tree already holds and adds exactly one entry per
    stored feature, the rectangle of its geometry under the id of its
    payload; the data map and the vector clock are as before. *)
Theorem rebuild_adds_one_entry_per_feature e :
  map_Forall (λ _ F, indexable F = true) (data e) →
  ∃ e',
    restoreRTree e = Ret e' ∧
    data e' = data e ∧ vclock e' = vclock e ∧
    size (rTree e') = (size (rTree e) + size (data e))%nat ∧
    rTree e ⊆ rTree e' ∧
    map_Forall (λ _ F, ∃ g id b, f_Feature F = Some g ∧ ID g = Str id ∧
                                 Geometry g = Some b ∧ (b, id) ∈ rTree e') (data e).
Proof.
  intros Hall. destruct (restoreRTree_indexable e Hall) as [e' Hret].
  exists e'. split; [done|].
  destruct (restoreRTree_Ret _ _ Hret) as (_ & _ & Hd & Hv).
  split; [done|]. split; [done|].
  unfold restoreRTree in Hret.
  destruct (restoreRTree_entries _ _ _ Hret) as (Hsize & Hsub & Hin).
  rewrite length_map_to_list in Hsize.
  split; [done|]. split; [done|].
  intros id F Hlook. rewrite Forall_forall in Hin.
  apply (Hin (id, F)). by apply elem_of_map_to_list.
Qed.

Lemma connectToReplicas_lookup rt (l : list string) e replica :
  r_connections (connections
    (foldl (λ e replica,
              match Dial rt replica with
              | None => e
              | Some conn => set_connections (Add replica conn (connections e)) e
              end) e l)) !! replica
  = if bool_decide (replica ∈ l) then
      match Dial rt replica with
      | Some conn => Some conn
      | None => r_connections (connections e) !! replica
      end
    else r_connections (connections e) !! replica.
Proof.
  revert e. induction l as [|k l IH]; intros e; simpl; [done|].
  rewrite IH. clear IH.
  assert (Dial rt replica = None ∨ replica ≠ k →
          r_connections (connections
            match Dial rt k with
            | Some conn => set_connections (Add k conn (connections e)) e
            | None => e
            end) !! replica = r_connections (connections e) !! replica) as Hstep.
  { intros Hcase. destruct (Dial rt k) as [conn|] eqn:Hdial; [|done]. simpl.
    apply lookup_insert_ne. intros ->. destruct Hcase; congruence. }
  destruct (decide (replica = k)) as [->|Hne].
  - rewrite (bool_decide_eq_true_2 (k ∈ k :: l)) by left.
    destruct (Dial rt k) as [conn|] eqn:Hdial.
    + case_bool_decide; [done|]. simpl. by rewrite lookup_insert_eq.
    + by case_bool_decide.
  - rewrite Hstep by auto.
    destruct (decide (replica ∈ l)) as [Hin|Hout].
    + rewrite !bool_decide_eq_true_2; [|by right|done].
      destruct (Dial rt replica); [done|]. done.
    + rewrite !bool_decide_eq_false_2; [done| |done].
      intros [?|?]%elem_of_cons; done.
Qed.

(** X21.  [connectToReplicas] registers, under its name, every configured
    replica that answers the dial, with the connection the dial returned (in
    place of one registered before); a replica that does not answer, and
    every name that is not configured, keeps what the registry held. *)
Theorem connect_registers_the_peers_that_answer rt e replica :
  r_connections (connections (connectToReplicas rt e)) !! replica
  = if bool_decide (replica ∈ replicas e) then
      match Dial rt replica with
      | Some conn => Some conn
      | None => r_connections (connections e) !! replica
      end
    else r_connections (connections e) !! replica.
Proof. apply connectToReplicas_lookup. Qed.

(** ** [parseRectParam] *)

Lemma Split_nonempty sep s : Split sep s ≠ [].
Proof.
  induction s as [|c s IH]; simpl; [done|].
  destruct (Split sep s); [done|]. by destruct (Ascii.eqb c sep).
Qed.

Lemma Split_free sep p : free_of sep p = true → Split sep p = [p].
Proof.
  induction p as [|c p IH]; simpl; [done|].
  intros [Hc Hp]%andb_true_iff. rewrite (IH Hp).
  by destruct (Ascii.eqb c sep).
Qed.

Lemma Split_cons sep p rest :
  free_of sep p = true →
  Split sep (p +:+ String sep rest) = p :: Split sep rest.
Proof.
  induction p as [|c p IH]; intros Hfree.
  - change ("" +:+ String sep rest) with (String sep rest). simpl.
    destruct (Split sep rest) eqn:Hs; [by apply Split_nonempty in Hs|].
    by rewrite Ascii.eqb_refl.
  - simpl in Hfree. apply andb_true_iff in Hfree as [Hc Hp].
    rewrite string_app_cons. simpl. rewrite (IH Hp).
    by destruct (Ascii.eqb c sep).
Qed.

Lemma Split_inv sep s p ps :
  Split sep s = p :: ps →
  free_of sep p = true ∧
  ((ps = [] ∧ s = p) ∨
   (∃ rest, s = p +:+ String sep rest ∧ Split sep rest = ps)).
Proof.
  revert p ps. induction s as [|c s IH]; intros p ps H; simpl in H.
  - injection H as <- <-. split; [done|]. by left.
  - destruct (Split sep s) as [|q qs] eqn:Hs; [done|].
    destruct (IH q qs eq_refl) as [Hfree Hcase].
    destruct (Ascii.eqb c sep) eqn:Hc.
    + injection H as <- <-. split; [done|]. right. exists s.
      apply Ascii.eqb_eq in Hc as ->. done.
    + injection H as <- <-. split; [simpl; by rewrite Hc|].
      destruct Hcase as [[-> ->]|(rest & -> & Hrest)]; [by left|].
      right. exists rest. by rewrite string_app_cons.
Qed.

Section rect.
Context `{conv : Strconv}.

(** X22.  [parseRectParam] accepts exactly the texts made of four fields
    without a comma, three commas between them, each field accepted by
    [ParseFloat]; the result holds the four values in the order of the
    fields.  Fewer or more commas, or one field that does not parse, give an
    error. *)
Theorem rect_param_is_four_parsed_fields s x1 x2 x3 x4 :
  parseRectParam s = Some (x1, x2, x3, x4) ↔
  ∃ p1 p2 p3 p4,
    s = rect_text p1 p2 p3 p4 ∧
    free_of comma p1 = true ∧ free_of comma p2 = true ∧
    free_of comma p3 = true ∧ free_of comma p4 = true ∧
    ParseFloat p1 = Some x1 ∧ ParseFloat p2 = Some x2 ∧
    ParseFloat p3 = Some x3 ∧ ParseFloat p4 = Some x4.
Proof.
  unfold parseRectParam, rect_text. split.
  - intros H.
    destruct (Split comma s) as [|p1 [|p2 [|p3 [|p4 [|p5 ps]]]]] eqn:Hs;
      simpl in H; try discriminate.
    destruct (ParseFloat p1) as [y1|] eqn:H1; simpl in H; [|discriminate].
    destruct (ParseFloat p2) as [y2|] eqn:H2; simpl in H; [|discriminate].
    destruct (ParseFloat p3) as [y3|] eqn:H3; simpl in H; [|discriminate].
    destruct (ParseFloat p4) as [y4|] eqn:H4; simpl in H; [|discriminate].
    injection H as <- <- <- <-.
    apply Split_inv in Hs as [F1 [[? _]|(s1 & -> & Hs)]]; [discriminate|].
    apply Split_inv in Hs as [F2 [[? _]|(s2 & -> & Hs)]]; [discriminate|].
    apply Split_inv in Hs as [F3 [[? _]|(s3 & -> & Hs)]]; [discriminate|].
    apply Split_inv in Hs as [F4 [[_ ->]|(s4 & -> & Hs)]];
      [|by apply Split_nonempty in Hs].
    exists p1, p2, p3, p4. by repeat split.
  - intros (p1 & p2 & p3 & p4 & -> & F1 & F2 & F3 & F4 & H1 & H2 & H3 & H4).
    rewrite (Split_cons _ _ _ F1), (Split_cons _ _ _ F2), (Split_cons _ _ _ F3),
      (Split_free _ _ F4).
    simpl. rewrite H1. simpl. rewrite H2. simpl. rewrite H3. simpl. by rewrite H4.
Qed.

End rect.

(** ** [filler] *)

Lemma imap_constant {A B} (f : nat → A → B) (c : B) (l : list A) :
  (∀ i x, f i x = c) → imap f l = replicate (length l) c.
Proof.
  revert f. induction l as [|x l IH]; intros f Hf; simpl; [done|].
  rewrite Hf. f_equal. apply IH. intros i y. apply Hf.
Qed.

(** X23.  [filler] overwrites the whole slice: the result does not depend on
    what the slice held, only on its length; the first byte is [ifzero] and
    every other byte is [ifnot].  So a slice of two bytes or more holds both
    bytes afterwards, which is what [TestFiller] looks for. *)
Theorem filler_overwrites_the_slice b ifzero ifnot :
  filler b ifzero ifnot
  = match b with
    | [] => []
    | _ :: rest => ifzero :: replicate (length rest) ifnot
    end ∧
  ((2 ≤ length b)%nat →
   ifzero ∈ filler b ifzero ifnot ∧ ifnot ∈ filler b ifzero ifnot).
Proof.
  assert (filler b ifzero ifnot
          = match b with
            | [] => []
            | _ :: rest => ifzero :: replicate (length rest) ifnot
            end) as Hform.
  { unfold filler. destruct b as [|x rest]; simpl; [done|]. f_equal.
    apply imap_constant. intros i y. unfold compose. by rewrite decide_False. }
  split; [done|]. rewrite Hform.
  destruct b as [|x [|y rest]]; simpl; try lia. intros _.
  split; [left|right; left].
Qed.

(** ** The properties on the sample runs *)

Lemma local_engine_indexed : indexed more_samples.local_engine.
Proof.
  assert (∃ rs,
    Start (codec := refjson.codec) sample.runtime
      [ApplyCommand sample.tx1;
       ApplyCommand (mkTransaction Upsert "n1" 2 (sample.feature "b" 5 5))]
      (NewEngine "n1" ["n2"; "n3"] "snapshot.json" "wal.txt") sample.disk
    = Ret (rs, more_samples.local_engine, more_samples.local_disk)) as [rs Hrun].
  { eexists. computed. }
  eapply (Start_indexed_without_snapshot (codec := refjson.codec)); [|exact Hrun].
  computed.
Qed.


Lemma clock_never_goes_back_witness :
  ∃ rs e' d',
    serve (codec := refjson.codec) restart.history sample.engine sample.disk
    = Ret (rs, e', d') ∧
    ∀ origin, (vclock_at sample.engine origin ≤ vclock_at e' origin)%N.
Proof.
  eexists _, _, _. apply conj_then; [computed|]. intros Hrun.
  exact (clock_never_goes_back (codec := refjson.codec) _ _ _ _ _ _ Hrun).
Defined.


Lemma local_write_at_last_lsn_is_dropped_witness :
  ApplyTransaction (codec := refjson.codec) Upsert (sample.feature "c" 3 3)
    more_samples.worn_engine sample.disk
  = Ret (None, more_samples.worn_engine, sample.disk).
Proof.
  apply (local_write_at_last_lsn_is_dropped (codec := refjson.codec)). computed.
Defined.

Lemma replay_twice_is_replay_once_witness :
  ∃ e',
    applyWAL wal_samples.writes sample.engine = Ret e' ∧
    applyWAL wal_samples.writes e' = Ret e'.
Proof.
  eexists. apply conj_then; [computed|]. intros Hrun.
  exact (replay_twice_is_replay_once _ _ _ Hrun).
Defined.

Lemma stored_lsns_are_distinct_witness :
  ∃ rs e' d',
    Start (codec := refjson.codec) sample.runtime restart.history
      sample.engine sample.disk = Ret (rs, e', d') ∧
    ∀ id1 id2 F1 F2,
      data e' !! id1 = Some F1 → data e' !! id2 = Some F2 →
      f_Name F1 = f_Name F2 → f_LSN F1 = f_LSN F2 → id1 = id2.
Proof.
  eexists _, _, _. apply conj_then; [computed|]. intros Hrun.
  assert (data (snd (loadSnapshot (codec := refjson.codec) sample.engine sample.disk)) = ∅)
    as Hnone by computed.
  exact (stored_lsns_are_distinct (codec := refjson.codec) sample.runtime restart.history
           "n1" ["n2"; "n3"] "snapshot.json" "wal.txt" sample.disk _ _ _ Hnone Hrun).
Defined.


Lemma reads_answer_from_the_map_witness :
  Execute (codec := refjson.codec) GetAllCommand
    more_samples.local_engine more_samples.local_disk
  = Ret (Features (f_Feature <$> data more_samples.local_engine),
         more_samples.local_engine, more_samples.local_disk) ∧
  ∀ id,
    Exists id more_samples.local_engine
    = Ret (bool_decide (is_Some (data more_samples.local_engine !! id))) ∧
    Execute (codec := refjson.codec) (ExistsCommand id)
      more_samples.local_engine more_samples.local_disk
    = Ret (Found (bool_decide (is_Some (data more_samples.local_engine !! id))),
           more_samples.local_engine, more_samples.local_disk).
Proof.
  exact (reads_answer_from_the_map (codec := refjson.codec) more_samples.local_engine
           more_samples.local_disk local_engine_indexed).
Defined.

Lemma rect_query_reports_stored_features_witness :
  ∃ m,
    getData (0, 0, 2, 2)%Z more_samples.local_engine = Ret m ∧
    (∀ id payload,
       m !! id = Some payload →
       ∃ F, data more_samples.local_engine !! id = Some F ∧ payload = f_Feature F) ∧
    m !! "a" = Some (sample.feature "a" 1 1).
Proof.
  eexists. apply conj_then; [computed|]. intros Hrun.
  destruct (rect_query_reports_stored_features _ _ _ _ _ _ Hrun) as [Hsound Hfull].
  split; [exact Hsound|].
  apply (Hfull local_engine_indexed "a" (mkFeature "n1" 1 (sample.feature "a" 1 1))
           (mkGeoFeature (Str "a") (sample.point 1 1) "") ((1, 1), (1, 1))%Z);
    computed.
Defined.

Lemma wal_load_keeps_order_and_skips_bad_lines_witness :
  loadWAL (codec := refjson.codec) sample.engine wal_samples.disk
  = ([sample.tx1; sample.tx2], None).
Proof.
  assert (omap (Unmarshal_Transaction (JSON := refjson.codec)) wal_samples.lines
          = [sample.tx1; sample.tx2]) as <- by computed.
  apply (wal_load_keeps_order_and_skips_bad_lines (codec := refjson.codec)).
  - computed.
  - apply (bool_decide_unpack _). vm_compute. exact I.
  - repeat constructor; computed.
Defined.






Lemma failed_snapshot_keeps_the_wal_witness :
  ∃ err d',
    makeSnapshot (codec := refjson.codec) more_samples.local_engine
      wal_samples.guarded_disk = (Some err, d') ∧
    files d' !! "wal.txt" = files wal_samples.guarded_disk !! "wal.txt".
Proof.
  eexists _, _. apply conj_then; [computed|]. intros Hrun.
  apply (failed_snapshot_keeps_the_wal (codec := refjson.codec) _ _ _ _ Hrun).
  discriminate.
Defined.

Lemma failed_write_drops_the_peer_witness :
  r_removing (drain (Broadcast sample.tx1 more_samples.mixed_registry)) = [] ∧
  ∀ replica,
    r_connections (drain (Broadcast sample.tx1 more_samples.mixed_registry)) !! replica
    = match r_connections more_samples.mixed_registry !! replica with
      | Some conn =>
          if broken conn
             || bool_decide (replica ∈ r_removing more_samples.mixed_registry)
          then None
          else Some (mkConn (writes conn ++ [sample.tx1]) false)
      | None => None
      end.
Proof.
  apply (failed_write_drops_the_peer sample.tx1 more_samples.mixed_registry).
  reflexivity.
Defined.

Lemma peers_get_own_writes_in_lsn_order_witness :
  ∃ rs e' d',
    serve (codec := refjson.codec) restart.history two_sinks.engine sample.disk
    = Ret (rs, e', d') ∧
    ∃ sent,
      r_connections (connections e')
      = written sent <$> r_connections (connections two_sinks.engine) ∧
      Forall (λ tx, tx_Name tx = "n1" ∧
                    (vclock_at two_sinks.engine "n1" < tx_Lsn tx ≤ vclock_at e' "n1")%N)
             sent ∧
      StronglySorted (λ a b, (tx_Lsn a < tx_Lsn b)%N) sent.
Proof.
  eexists _, _, _. apply conj_then; [computed|]. intros Hrun.
  exact (peers_get_own_writes_in_lsn_order (codec := refjson.codec)
           restart.history two_sinks.engine sample.disk _ _ _ eq_refl Hrun).
Defined.


Lemma replace_request_needs_the_id_witness :
  replaceHandler (codec := refjson.codec) (geo := more_samples.geo)
    (Some wal_samples.new_body) more_samples.node more_samples.local_disk
  = Ret (Replied StatusNotFound, more_samples.node, more_samples.local_disk).
Proof.
  assert (UnmarshalFeature (GeoJSON := more_samples.geo) wal_samples.new_body
          = Some (mkGeoFeature (Str "c") (sample.point 3 3) "")) as Hparse by computed.
  rewrite (replace_request_needs_the_id (codec := refjson.codec) (geo := more_samples.geo)
             wal_samples.new_body (mkGeoFeature (Str "c") (sample.point 3 3) "") "c"
             more_samples.node more_samples.local_disk
             eq_refl Hparse eq_refl local_engine_indexed).
  reflexivity.
Defined.


Lemma refused_write_changes_nothing_witness :
  ∃ served s' d',
    upsertHandler (codec := refjson.codec) (geo := more_samples.geo)
      false None more_samples.node more_samples.local_disk = Ret (served, s', d') ∧
    served = Replied StatusBadRequest ∧
    s' = more_samples.node ∧ d' = more_samples.local_disk.
Proof.
  eexists _, _, _. apply conj_then; [computed|]. intros Hrun.
  destruct (refused_write_changes_nothing (codec := refjson.codec)
              (geo := more_samples.geo) false None more_samples.node
              more_samples.local_disk _ _ _ (or_introl Hrun)) as [_ Hkeep].
  split; [reflexivity|]. apply Hkeep; discriminate.
Defined.

Lemma rebuild_adds_one_entry_per_feature_witness :
  ∃ e',
    restoreRTree more_samples.local_engine = Ret e' ∧
    data e' = data more_samples.local_engine ∧
    vclock e' = vclock more_samples.local_engine ∧
    size (rTree e')
    = (size (rTree more_samples.local_engine) + size (data more_samples.local_engine))%nat ∧
    rTree more_samples.local_engine ⊆ rTree e' ∧
    map_Forall (λ _ F, ∃ g id b, f_Feature F = Some g ∧ ID g = Str id ∧
                                 Geometry g = Some b ∧ (b, id) ∈ rTree e')
               (data more_samples.local_engine).
Proof.
  apply (rebuild_adds_one_entry_per_feature more_samples.local_engine).
  apply indexed_indexable. exact local_engine_indexed.
Defined.
